(** * Weather Search: the in-memory LRU cache with TTL of [server.js]

    A shallow embedding of the class [LRUCache] (server.js, lines 41-85)
    and proofs about its three methods [get], [set] and [stats].

    - The JavaScript [Map] held in [this.map] iterates in insertion order;
      it is modelled by an association list whose head is the oldest
      binding (the "first item" that [set] evicts).
    - [Date.now()] is read once by each call of [get] and [set]; the reading
      is the argument [now] (milliseconds, an integer).
    - A method is a state transformer over the cache object that either
      returns or throws ([outcome]).  Numbers are integers of [Z]; the
      [NaN] that [parseInt] can produce is outside the model. *)

From Stdlib Require Import ZArith List String Bool Lia.
Import ListNotations.
Local Open Scope Z_scope.

(** ** The insertion-ordered [Map] *)

Module JSMap.
Section Ordered.
Context {E : Type}.

Definition t : Type := list (string * E).

(** [m.get(key)]: the bound value, [None] for [undefined]. *)
Fixpoint get (m : t) (key : string) : option E :=
  match m with
  | [] => None
  | (k, e) :: m' => if String.eqb k key then Some e else get m' key
  end.

(** [m.has(key)]. *)
Definition has (m : t) (key : string) : bool :=
  match get m key with
  | Some _ => true
  | None => false
  end.

(** [m.delete(key)]: what is bound to [key] leaves the order, the other
    bindings keep their relative positions.  A [Map] binds a key at most
    once ([wf] below), so this removes one binding or none. *)
Fixpoint delete (m : t) (key : string) : t :=
  match m with
  | [] => []
  | (k, e) :: m' =>
      if String.eqb k key then delete m' key else (k, e) :: delete m' key
  end.

(** [m.set(key, e)]: a bound key keeps its position and gets the new
    value, a new key goes to the end. *)
Fixpoint set (m : t) (key : string) (e : E) : t :=
  match m with
  | [] => [(key, e)]
  | (k, e0) :: m' =>
      if String.eqb k key then (k, e) :: m' else (k, e0) :: set m' key e
  end.

(** [m.size]. *)
Definition size (m : t) : Z := Z.of_nat (List.length m).

(** [m.keys()], in iteration order. *)
Definition keys (m : t) : list string := List.map fst m.

(** [m.keys().next().value]: [None] stands for [undefined]. *)
Definition first_key (m : t) : option string := hd_error (keys m).

(** A [Map] binds a key at most once. *)
Definition wf (m : t) : Prop := NoDup (keys m).
End Ordered.
Arguments t : clear implicits.
End JSMap.

(** ** Outcomes of a call *)

Inductive js_error : Type := Error (name : string).

Inductive outcome (A : Type) : Type :=
| Returned (a : A)
| Thrown (e : js_error).
Arguments Returned {A} a.
Arguments Thrown {A} e.

(** JavaScript truthiness of what [keys().next().value] yields: [undefined]
    and the empty string are falsy, every other string is truthy. *)
Definition truthy_key (k : option string) : bool :=
  match k with
  | Some s => negb (String.eqb s EmptyString)
  | None => false
  end.

(** The object returned by [stats()]. *)
Module Stats.
Record t : Type := mk { entries : Z; maxEntries : Z; ttlMillis : Z }.
End Stats.

(** ** The cache *)

Module LRUCache.
Section Cache.
(** The cached payloads are opaque to the cache. *)
Context {V : Type}.

(** [{ value, expiry }] *)
Record entry : Type := mkEntry { value : V; expiry : Z }.

(** The fields of a cache object. *)
Record t : Type := mk {
  maxEntries : Z;
  ttlMillis : Z;
  map : JSMap.t entry
}.

Definition with_map (c : t) (m : JSMap.t entry) : t :=
  mk (maxEntries c) (ttlMillis c) m.

(** Methods run on [this] and return or throw. *)
Definition M (A : Type) : Type := t -> outcome (A * t).

Definition ret {A : Type} (a : A) : M A := fun c => Returned (a, c).

Definition bind {A B : Type} (m : M A) (f : A -> M B) : M B :=
  fun c =>
    match m c with
    | Returned (a, c') => f a c'
    | Thrown e => Thrown e
    end.

Definition this : M t := fun c => Returned (c, c).

Definition update_map (f : JSMap.t entry -> JSMap.t entry) : M unit :=
  fun c => Returned (tt, with_map c (f (map c))).
End Cache.
Arguments entry : clear implicits.
Arguments t : clear implicits.
Arguments M : clear implicits.

Declare Scope cache_scope.
Delimit Scope cache_scope with cache.
Notation "x <- m ;; k" := (LRUCache.bind m (fun x => k))
  (at level 61, m at next level, right associativity) : cache_scope.
Notation "m ;; k" := (LRUCache.bind m (fun _ => k))
  (at level 61, right associativity) : cache_scope.

Local Open Scope cache_scope.

Section Methods.
Context {V : Type}.

(** [constructor(maxEntries = 200, ttlSeconds = 600)]: an argument left
    [undefined] ([None]) takes its default. *)
Definition constructor (maxEntries ttlSeconds : option Z)
  : outcome (t V) :=
  let maxEntries := match maxEntries with Some n => n | None => 200 end in
  let ttlSeconds := match ttlSeconds with Some n => n | None => 600 end in
  Returned (mk maxEntries (ttlSeconds * 1000) []).

(** [_isExpired(entry)]: [Date.now() > entry.expiry]. *)
Definition _isExpired (now : Z) (entry : entry V) : M V bool :=
  ret (now >? expiry entry).

(** [get(key)]; [None] is the [null] it returns on a miss. *)
Definition get (now : Z) (key : string) : M V (option V) :=
  this <- this ;;
  match JSMap.get (map this) key with
  | None => ret None
  | Some entry =>
      expired <- _isExpired now entry ;;
      if expired then
        update_map (fun m => JSMap.delete m key) ;;
        ret None
      else
        update_map (fun m => JSMap.delete m key) ;;
        update_map (fun m => JSMap.set m key entry) ;;
        ret (Some (value entry))
  end.

(** [set(key, value)] *)
Definition set (now : Z) (key : string) (value : V) : M V unit :=
  this0 <- this ;;
  (if JSMap.size (map this0) >=? maxEntries this0 then
     let firstKey := JSMap.first_key (map this0) in
     match firstKey with
     | Some k =>
         if truthy_key firstKey
         then update_map (fun m => JSMap.delete m k)
         else ret tt
     | None => ret tt
     end
   else ret tt) ;;
  this1 <- this ;;
  let entry := mkEntry value (now + ttlMillis this1) in
  (if JSMap.has (map this1) key
   then update_map (fun m => JSMap.delete m key)
   else ret tt) ;;
  update_map (fun m => JSMap.set m key entry).

(** [stats()] *)
Definition stats : M V Stats.t :=
  this <- this ;;
  ret (Stats.mk (JSMap.size (map this)) (maxEntries this) (ttlMillis this)).

(** A call of the public interface, and what it hands back. *)
Inductive call : Type :=
| CallGet (key : string)
| CallSet (key : string) (value : V)
| CallStats.

Inductive reply : Type :=
| GetReply (r : option V)
| SetReply
| StatsReply (s : Stats.t).

Definition perform (now : Z) (c : call) : M V reply :=
  match c with
  | CallGet key => r <- get now key ;; ret (GetReply r)
  | CallSet key value => set now key value ;; ret SetReply
  | CallStats => s <- stats ;; ret (StatsReply s)
  end.

(** A sequence of calls, each with the clock reading at which it runs. *)
Fixpoint run (calls : list (Z * call)) : M V (list reply) :=
  match calls with
  | [] => ret []
  | (now, c) :: calls' =>
      r <- perform now c ;;
      rs <- run calls' ;;
      ret (r :: rs)
  end.

(** A cache from its construction through a sequence of calls. *)
Definition session (maxEntries ttlSeconds : option Z)
  (calls : list (Z * call)) : outcome (list reply * t V) :=
  match constructor maxEntries ttlSeconds with
  | Returned c => run calls c
  | Thrown e => Thrown e
  end.

(** The keys stored in the cache, least recently used first. *)
Definition keys (c : t V) : list string := JSMap.keys (map c).

(** The store as the eviction step of [set] leaves it (lines 67-71),
    written without the monad. *)
Definition after_eviction (c : t V) : JSMap.t (entry V) :=
  if JSMap.size (map c) >=? maxEntries c then
    match map c with
    | (k, _) :: _ =>
        if String.eqb k EmptyString then map c else JSMap.delete (map c) k
    | [] => map c
    end
  else map c.

(** The keys stored before a call that are gone after it. *)
Definition evicted (before after : t V) : list string :=
  List.filter (fun k => negb (existsb (String.eqb k) (keys after)))
    (keys before).

(** The entries that [_isExpired] would not reject at [now]. *)
Definition live (now : Z) (c : t V) : JSMap.t (entry V) :=
  List.filter (fun b => negb (now >? expiry (snd b))) (map c).

Definition live_count (now : Z) (c : t V) : Z := JSMap.size (live now c).

(** The entries still stored although [_isExpired] rejects them at [now]. *)
Definition stale (now : Z) (c : t V) : JSMap.t (entry V) :=
  List.filter (fun b => now >? expiry (snd b)) (map c).
End Methods.
Arguments call : clear implicits.
Arguments reply : clear implicits.
End LRUCache.

(** ** Recency of a sequence of touches *)

(** [differs key x]: [x] is another key than [key]. *)
Definition differs (key : string) : string -> bool :=
  fun x => negb (String.eqb x key).

(** [touch l k]: [k] becomes the most recently used key of the order [l]. *)
Definition touch (l : list string) (k : string) : list string :=
  List.filter (differs k) l ++ [k].

(** The distinct keys of a sequence of touches, least recent first. *)
Definition recency (touches : list string) : list string :=
  fold_left touch touches [].

(** The last [n] elements of a list. *)
Definition lastn {A : Type} (n : nat) (l : list A) : list A :=
  skipn (List.length l - n) l.

(** The keys of a sequence of calls that [set] was called with. *)
Definition set_keys {V : Type} (calls : list (Z * LRUCache.call V))
  : list string :=
  flat_map (fun tc => match snd tc with
                      | LRUCache.CallSet k _ => [k]
                      | _ => []
                      end) calls.

(** A sequence of calls with its [stats()] calls taken out, and the
    replies of a sequence without those of [stats()]. *)
Definition is_stats_call {V : Type} (tc : Z * LRUCache.call V) : bool :=
  match snd tc with
  | LRUCache.CallStats => true
  | _ => false
  end.

Definition without_stats {V : Type} (calls : list (Z * LRUCache.call V))
  : list (Z * LRUCache.call V) :=
  List.filter (fun tc => negb (is_stats_call tc)) calls.

Definition is_stats_reply {V : Type} (r : LRUCache.reply V) : bool :=
  match r with
  | LRUCache.StatsReply _ => true
  | _ => false
  end.

Definition other_replies {V : Type} (rs : list (LRUCache.reply V))
  : list (LRUCache.reply V) :=
  List.filter (fun r => negb (is_stats_reply r)) rs.

(** What every call keeps: the two configured fields, and the keys, to
    which only a [set] can add its own. *)
Definition keeps {V : Type} (c c' : LRUCache.t V) (added : list string)
  : Prop :=
  LRUCache.maxEntries c' = LRUCache.maxEntries c
  /\ LRUCache.ttlMillis c' = LRUCache.ttlMillis c
  /\ (forall k, In k (LRUCache.keys c') ->
                In k (LRUCache.keys c) \/ In k added)
  /\ (JSMap.wf (LRUCache.map c) -> JSMap.wf (LRUCache.map c')).

(** The state a cache of positive capacity is in as long as no [set] was
    called with the empty string: no key twice, no more entries than the
    capacity, no empty key. *)
Definition bounded {V : Type} (c : LRUCache.t V) : Prop :=
  JSMap.wf (LRUCache.map c)
  /\ JSMap.size (LRUCache.map c) <= LRUCache.maxEntries c
  /\ ~ In EmptyString (LRUCache.keys c).

(** The calls [set(k, v)] for a list of timed bindings. *)
Definition sets {V : Type} (kvs : list (Z * (string * V)))
  : list (Z * LRUCache.call V) :=
  List.map (fun b => (fst b, LRUCache.CallSet (fst (snd b)) (snd (snd b)))) kvs.

(** The bound that holds for every capacity, positive or not: a cache
    never keeps more entries than its capacity, or than one entry when the
    capacity is below one. *)
Definition within_bound {V : Type} (c : LRUCache.t V) : Prop :=
  JSMap.wf (LRUCache.map c)
  /\ JSMap.size (LRUCache.map c) <= Z.max (LRUCache.maxEntries c) 1
  /\ ~ In EmptyString (LRUCache.keys c).

(** Every binding of the cache comes from a [set] call of the history
    [hist], with that key and value, and expires one TTL after that call. *)
Definition provenance {V : Type} (hist : list (Z * LRUCache.call V))
    (c : LRUCache.t V) : Prop :=
  forall k e,
    JSMap.get (LRUCache.map c) k = Some e ->
    exists t0,
      In (t0, LRUCache.CallSet k (LRUCache.value e)) hist
      /\ LRUCache.expiry e = t0 + LRUCache.ttlMillis c.

(** ** The request handlers of [server.js]

    The handler of [GET /api/weather] (lines 110-169) runs up to its first
    [await], suspends while the vendor is asked, and resumes when the
    answer has settled; the cache is read in the first part and written in
    the second.  The two parts are [weather_start] and [weather_finish].
    What lies outside the file is a parameter: the string methods [trim]
    and [toLowerCase], the serialisation of [URLSearchParams], the vendor's
    answer, and the object literal of lines 140-159 ([extract]), whose
    property reads and date formatting can throw.  [new Date()] is the
    clock reading [stamp]; its ISO formatting is not modelled.  The cache
    the handlers work on has the integer capacity and TTL of the cache
    model; the [NaN] that [parseInt] yields on lines 30-31 for a setting
    that is no number is outside the model, so the construction on line 87
    is not part of it. *)

(** How a promise settles or a block ends: with a value, or with an error
    of which the handler reads the [message]. *)
Inductive settled (A : Type) : Type :=
| Fulfilled (a : A)
| Rejected (message : string).
Arguments Fulfilled {A} a.
Arguments Rejected {A} message.

Module Server.

(** [req.query.city] as the query parser hands it over: [undefined], a
    string, or the array or object it builds for [?city=a&city=b] and
    [?city[k]=v]. *)
Inductive query : Type :=
| Missing
| Text (s : string)
| Nested.

(** [req.query.city || ''] when the parameter is a string or missing. *)
Definition query_text (q : query) : string :=
  match q with
  | Text s => s
  | Missing | Nested => EmptyString
  end.

Section Handlers.
Variable trim : string -> string.
Variable toLowerCase : string -> string.
Variable urlencode : list (string * string) -> string.
Context {Vendor : Type} {Data : Type}.
Variable extract : Vendor -> settled Data.
Variable API_KEY : option string.

(** The JSON documents the handlers send. *)
Inductive body : Type :=
| ErrorBody (error : string)
| VendorErrorBody (error : string) (status : Z) (text : string)
| InternalErrorBody (error : string) (detail : string)
| WeatherBody (cached : bool) (fetched_at : Z) (data : Data)
| HealthBody (status : string) (now : Z) (cache : Stats.t).

(** [res.status(n).json(body)]; [res.json(body)] has status 200. *)
Record response : Type := mkResponse { status : Z; json : body }.

(** What the handler reads of the vendor's response [r]. *)
Record vendor_response : Type := mkVendorResponse {
  r_status : Z;
  r_ok : bool;
  r_text : settled string;
  r_json : settled Vendor
}.

(** [buildOpenWeatherUrl(city)] *)
Definition buildOpenWeatherUrl (city : string) : string :=
  let base := "https://api.openweathermap.org/data/2.5/weather"%string in
  let params :=
    urlencode [("q"%string, city);
               ("appid"%string,
                match API_KEY with Some k => k | None => EmptyString end);
               ("units"%string, "metric"%string)] in
  (base ++ "?" ++ params)%string.

(** Where the handler stands at its first [await]: it has answered, or it
    waits for [fetch(url)]. *)
Inductive started : Type :=
| Responded (r : response)
| Awaiting (city key url : string).

(** Lines 111-127: from the query parameter to the cache lookup and the
    check of the API key.  An array or object is truthy and has no [trim]:
    line 111 then throws a [TypeError], outside the [try] of line 128, and
    nothing in the file catches it.  What the cache returns is [null] or
    one of the objects of line 140, which are truthy. *)
Definition weather_start (now stamp : Z) (query_city : query)
  : LRUCache.M Data started :=
  match query_city with
  | Nested => fun _ => Thrown (Error "TypeError")
  | Missing | Text _ =>
      let city := trim (query_text query_city) in
      if String.eqb city EmptyString then
        LRUCache.ret
          (Responded
             (mkResponse 400
                (ErrorBody "Missing required query parameter 'city'.")))
      else
        let key := toLowerCase city in
        LRUCache.bind (LRUCache.get now key) (fun cached =>
        match cached with
        | Some data =>
            LRUCache.ret
              (Responded (mkResponse 200 (WeatherBody true stamp data)))
        | None =>
            if negb (truthy_key API_KEY) then
              LRUCache.ret
                (Responded
                   (mkResponse 500
                      (ErrorBody
                         "Server not configured with OPENWEATHERMAP_API_KEY. See README.")))
            else LRUCache.ret (Awaiting city key (buildOpenWeatherUrl city))
        end)
  end.

(** Lines 128-168: from the settled [fetch] to the response; [catch]
    answers every rejection and every throw with status 500. *)
Definition weather_finish (now stamp : Z) (city key : string)
    (fetched : settled vendor_response) : LRUCache.M Data response :=
  let internal message :=
    LRUCache.ret
      (mkResponse 500 (InternalErrorBody "Internal server error" message)) in
  match fetched with
  | Rejected message => internal message
  | Fulfilled r =>
      if r_status r =? 404 then
        LRUCache.ret
          (mkResponse 404
             (ErrorBody ("City '" ++ city ++ "' not found by vendor.")%string))
      else if negb (r_ok r) then
        match r_text r with
        | Fulfilled text =>
            LRUCache.ret
              (mkResponse 502
                 (VendorErrorBody "Vendor API error" (r_status r) text))
        | Rejected message => internal message
        end
      else
        match r_json r with
        | Rejected message => internal message
        | Fulfilled vendor =>
            match extract vendor with
            | Rejected message => internal message
            | Fulfilled extracted =>
                LRUCache.bind (LRUCache.set now key extracted) (fun _ =>
                LRUCache.ret
                  (mkResponse 200 (WeatherBody false stamp extracted)))
            end
        end
  end.

(** The handler of [GET /api/health] (lines 99-101). *)
Definition health (stamp : Z) : LRUCache.M Data response :=
  LRUCache.bind LRUCache.stats (fun s =>
  LRUCache.ret (mkResponse 200 (HealthBody "ok" stamp s))).

(** The process: the one cache, and the requests suspended at their
    [await], each with the city and the key it will store under. *)
Record state : Type := mkState {
  cache : LRUCache.t Data;
  pending : list (string * string)
}.

(** What the event loop runs next: a request enters the weather handler,
    the [n]-th suspended request resumes with the vendor's answer, or the
    health handler runs.  Each runs to its next [await] or to its end
    before the next event starts; an index [n] beyond the suspended
    requests names none of them, and the event does nothing.  An error
    thrown out of a handler ends the run. *)
Inductive event : Type :=
| Arrive (now stamp : Z) (query_city : query)
| Settle (n : nat) (now stamp : Z) (fetched : settled vendor_response)
| Health (stamp : Z).

Definition step (ev : event) (s : state)
  : outcome (option response * state) :=
  match ev with
  | Arrive now stamp query_city =>
      match weather_start now stamp query_city (cache s) with
      | Returned (Responded r, c) => Returned (Some r, mkState c (pending s))
      | Returned (Awaiting city key _, c) =>
          Returned (None, mkState c (pending s ++ [(city, key)]))
      | Thrown e => Thrown e
      end
  | Settle n now stamp fetched =>
      match nth_error (pending s) n with
      | None => Returned (None, s)
      | Some (city, key) =>
          match weather_finish now stamp city key fetched (cache s) with
          | Returned (r, c) =>
              Returned
                (Some r,
                 mkState c (firstn n (pending s) ++ skipn (S n) (pending s)))
          | Thrown e => Thrown e
          end
      end
  | Health stamp =>
      match health stamp (cache s) with
      | Returned (r, c) => Returned (Some r, mkState c (pending s))
      | Thrown e => Thrown e
      end
  end.

Fixpoint steps (evs : list event) (s : state)
  : outcome (list (option response) * state) :=
  match evs with
  | [] => Returned ([], s)
  | ev :: evs' =>
      match step ev s with
      | Returned (r, s') =>
          match steps evs' s' with
          | Returned (rs, s'') => Returned (r :: rs, s'')
          | Thrown e => Thrown e
          end
      | Thrown e => Thrown e
      end
  end.

(** The events in which the query parameter is a string or is missing. *)
Definition plain (ev : event) : Prop :=
  match ev with
  | Arrive _ _ Nested => False
  | _ => True
  end.
End Handlers.
Arguments body : clear implicits.
Arguments response : clear implicits.
Arguments started : clear implicits.
Arguments vendor_response : clear implicits.
Arguments state : clear implicits.
Arguments event : clear implicits.
End Server.

(** Instances of [toLowerCase] and [trim] on names written in ASCII, for
    the examples: letters [A]-[Z] are lowered, and the characters 9 to 13
    and the space are stripped at both ends. *)
Definition ascii_lower_char (a : Ascii.ascii) : Ascii.ascii :=
  let n := Ascii.N_of_ascii a in
  if ((65 <=? n) && (n <=? 90))%N then Ascii.ascii_of_N (n + 32) else a.

Fixpoint ascii_lower (s : string) : string :=
  match s with
  | EmptyString => EmptyString
  | String a s' => String (ascii_lower_char a) (ascii_lower s')
  end.

Definition ascii_space (a : Ascii.ascii) : bool :=
  let n := Ascii.N_of_ascii a in
  (((9 <=? n) && (n <=? 13)) || (n =? 32))%N.

Fixpoint drop_spaces (l : list Ascii.ascii) : list Ascii.ascii :=
  match l with
  | [] => []
  | a :: l' => if ascii_space a then drop_spaces l' else l
  end.

Definition ascii_trim (s : string) : string :=
  string_of_list_ascii
    (rev (drop_spaces (rev (drop_spaces (list_ascii_of_string s))))).

(** ** Facts about the ordered map *)

Section JSMapFacts.
Context {E : Type}.
Implicit Types (m : JSMap.t E) (k key : string) (e : E).

Lemma keys_app m1 m2 :
  JSMap.keys (m1 ++ m2) = JSMap.keys m1 ++ JSMap.keys m2.
Proof. unfold JSMap.keys. apply map_app. Qed.

Lemma size_app m1 m2 :
  JSMap.size (m1 ++ m2) = JSMap.size m1 + JSMap.size m2.
Proof. unfold JSMap.size. rewrite length_app. lia. Qed.

Lemma size_nonneg m : 0 <= JSMap.size m.
Proof. unfold JSMap.size. lia. Qed.

Lemma keys_delete m key :
  JSMap.keys (JSMap.delete m key) = List.filter (differs key) (JSMap.keys m).
Proof.
  induction m as [|[k e] m IH]; simpl; [reflexivity|].
  unfold differs at 1. destruct (String.eqb k key); simpl.
  - exact IH.
  - now rewrite <- IH.
Qed.

Lemma get_none_iff m key :
  JSMap.get m key = None <-> ~ In key (JSMap.keys m).
Proof.
  induction m as [|[k e] m IH]; simpl.
  - tauto.
  - destruct (String.eqb_spec k key) as [->|Hne].
    + split; [discriminate | intros H; exfalso; apply H; now left].
    + rewrite IH. split; [intros H [?|?]; [contradiction|tauto] | tauto].
Qed.

Lemma has_true_iff m key :
  JSMap.has m key = true <-> In key (JSMap.keys m).
Proof.
  unfold JSMap.has. destruct (JSMap.get m key) eqn:Hg.
  - split; [intros _ | reflexivity].
    destruct (in_dec string_dec key (JSMap.keys m)) as [Hin|Hnin]; [exact Hin|].
    apply get_none_iff in Hnin. congruence.
  - apply get_none_iff in Hg. split; [discriminate | contradiction].
Qed.

Lemma has_false_iff m key :
  JSMap.has m key = false <-> ~ In key (JSMap.keys m).
Proof.
  rewrite <- has_true_iff. destruct (JSMap.has m key); split; congruence.
Qed.

Lemma get_delete_same m key : JSMap.get (JSMap.delete m key) key = None.
Proof.
  apply get_none_iff. rewrite keys_delete, filter_In. unfold differs.
  rewrite String.eqb_refl. intros [_ H]. discriminate.
Qed.

Lemma get_delete_other m key k :
  k <> key -> JSMap.get (JSMap.delete m key) k = JSMap.get m k.
Proof.
  intros Hne. induction m as [|[k0 e0] m IH]; simpl; [reflexivity|].
  destruct (String.eqb_spec k0 key) as [->|Hk0]; simpl.
  - destruct (String.eqb_spec key k) as [Heq|_]; [congruence | exact IH].
  - destruct (String.eqb k0 k); [reflexivity | exact IH].
Qed.

Lemma delete_absent m key :
  JSMap.get m key = None -> JSMap.delete m key = m.
Proof.
  induction m as [|[k e] m IH]; simpl; [reflexivity|].
  destruct (String.eqb k key); [discriminate|].
  intros H. now rewrite IH.
Qed.

Lemma set_absent m key e :
  JSMap.get m key = None -> JSMap.set m key e = m ++ [(key, e)].
Proof.
  induction m as [|[k e0] m IH]; simpl; [reflexivity|].
  destruct (String.eqb k key); [discriminate|].
  intros H. now rewrite IH.
Qed.

(** Deleting a key and setting it again moves it to the end: the idiom
    both [get] and [set] use to refresh the order. *)
Lemma set_after_delete m key e :
  JSMap.set (JSMap.delete m key) key e = JSMap.delete m key ++ [(key, e)].
Proof. apply set_absent, get_delete_same. Qed.

Lemma get_app_absent m m' key :
  JSMap.get m key = None -> JSMap.get (m ++ m') key = JSMap.get m' key.
Proof.
  induction m as [|[k e] m IH]; simpl; [reflexivity|].
  destruct (String.eqb k key); [discriminate | exact IH].
Qed.

Lemma get_app_present m m' key e :
  JSMap.get m key = Some e -> JSMap.get (m ++ m') key = Some e.
Proof.
  induction m as [|[k e0] m IH]; simpl; [discriminate|].
  destruct (String.eqb k key); [trivial | exact IH].
Qed.

Lemma size_delete_le m key : JSMap.size (JSMap.delete m key) <= JSMap.size m.
Proof.
  unfold JSMap.size. induction m as [|[k e] m IH]; simpl; [lia|].
  destruct (String.eqb k key); simpl List.length; lia.
Qed.

Lemma size_delete_present m key :
  JSMap.wf m -> In key (JSMap.keys m) ->
  JSMap.size (JSMap.delete m key) = JSMap.size m - 1.
Proof.
  unfold JSMap.wf, JSMap.size.
  induction m as [|[k e] m IH]; cbn -[Z.of_nat].
  - intros _ [].
  - intros Hnd Hin. inversion Hnd as [|? ? Hnotin Hnd']; subst.
    destruct (String.eqb_spec k key) as [->|Hne].
    + rewrite delete_absent by (now apply get_none_iff). lia.
    + destruct Hin as [?|Hin]; [contradiction|].
      specialize (IH Hnd' Hin). cbn -[Z.of_nat]. lia.
Qed.

Lemma size_delete_stored m key :
  In key (JSMap.keys m) ->
  JSMap.size (JSMap.delete m key) + 1 <= JSMap.size m.
Proof.
  unfold JSMap.size. induction m as [|[k e] m IH]; cbn -[Z.of_nat].
  - intros [].
  - intros Hin. destruct (String.eqb_spec k key) as [->|Hne].
    + pose proof (size_delete_le m key) as Hle. unfold JSMap.size in Hle. lia.
    + destruct Hin as [?|Hin]; [contradiction|].
      specialize (IH Hin). cbn -[Z.of_nat]. lia.
Qed.

Lemma filter_differs_absent (l : list string) key :
  ~ In key l -> List.filter (differs key) l = l.
Proof.
  induction l as [|x l IH]; simpl; [reflexivity|].
  intros H. unfold differs at 1.
  destruct (String.eqb_spec x key) as [->|_]; simpl.
  - exfalso. apply H. now left.
  - rewrite IH; [reflexivity | tauto].
Qed.

Lemma wf_delete m key : JSMap.wf m -> JSMap.wf (JSMap.delete m key).
Proof.
  unfold JSMap.wf. rewrite keys_delete. apply NoDup_filter.
Qed.

Lemma wf_snoc m key e :
  JSMap.wf m -> ~ In key (JSMap.keys m) -> JSMap.wf (m ++ [(key, e)]).
Proof.
  unfold JSMap.wf. rewrite keys_app. simpl. intros Hnd Hnin.
  apply NoDup_app; [exact Hnd | repeat constructor; intros [] |].
  intros x Hx [<-|[]]. contradiction.
Qed.

Lemma wf_touch m key e :
  JSMap.wf m -> JSMap.wf (JSMap.delete m key ++ [(key, e)]).
Proof.
  intros Hwf. apply wf_snoc; [now apply wf_delete|].
  apply get_none_iff, get_delete_same.
Qed.
End JSMapFacts.

(** ** The methods, case by case *)

Section CacheFacts.
Context {V : Type}.
Implicit Types (c : LRUCache.t V) (now : Z) (key k : string) (v : V).
Implicit Types (e : LRUCache.entry V).

Lemma get_miss now key c :
  JSMap.get (LRUCache.map c) key = None ->
  LRUCache.get now key c = Returned (None, c).
Proof.
  intros H. unfold LRUCache.get, LRUCache.bind, LRUCache.this.
  now rewrite H.
Qed.

Lemma get_expired now key c e :
  JSMap.get (LRUCache.map c) key = Some e ->
  LRUCache.expiry e < now ->
  LRUCache.get now key c =
  Returned (None, LRUCache.with_map c (JSMap.delete (LRUCache.map c) key)).
Proof.
  intros H Hlt.
  unfold LRUCache.get, LRUCache.bind, LRUCache.this, LRUCache._isExpired.
  rewrite H. unfold LRUCache.ret.
  replace (now >? LRUCache.expiry e) with true by (symmetry; apply Z.gtb_lt; lia).
  reflexivity.
Qed.

Lemma get_hit now key c e :
  JSMap.get (LRUCache.map c) key = Some e ->
  now <= LRUCache.expiry e ->
  LRUCache.get now key c =
  Returned (Some (LRUCache.value e),
            LRUCache.with_map c
              (JSMap.delete (LRUCache.map c) key ++ [(key, e)])).
Proof.
  intros H Hle.
  unfold LRUCache.get, LRUCache.bind, LRUCache.this, LRUCache._isExpired.
  rewrite H. unfold LRUCache.ret.
  replace (now >? LRUCache.expiry e) with false
    by (symmetry; rewrite Z.gtb_ltb; apply Z.ltb_ge; lia).
  unfold LRUCache.update_map, LRUCache.with_map. cbn.
  now rewrite set_after_delete.
Qed.

Lemma refresh_eq key e c :
  LRUCache.bind
    (if JSMap.has (LRUCache.map c) key
     then LRUCache.update_map (fun m => JSMap.delete m key)
     else LRUCache.ret tt)
    (fun _ => LRUCache.update_map (fun m => JSMap.set m key e)) c =
  Returned (tt,
            LRUCache.with_map c
              (JSMap.delete (LRUCache.map c) key ++ [(key, e)])).
Proof.
  unfold LRUCache.bind, JSMap.has.
  destruct (JSMap.get (LRUCache.map c) key) eqn:Hg;
    unfold LRUCache.update_map, LRUCache.ret, LRUCache.with_map; cbn.
  - now rewrite set_after_delete.
  - now rewrite delete_absent, set_absent.
Qed.

Lemma set_eq now key v c :
  LRUCache.set now key v c =
  Returned (tt,
            LRUCache.with_map c
              (JSMap.delete (LRUCache.after_eviction c) key
               ++ [(key, LRUCache.mkEntry v (now + LRUCache.ttlMillis c))])).
Proof.
  pose proof (refresh_eq key) as Hr. unfold LRUCache.bind in Hr.
  unfold LRUCache.set, LRUCache.bind, LRUCache.this, LRUCache.after_eviction.
  destruct c as [mx ttl m]; cbn [LRUCache.map LRUCache.maxEntries].
  destruct (JSMap.size m >=? mx).
  - destruct m as [|[k0 e0] m].
    + cbn [JSMap.first_key JSMap.keys List.map hd_error].
      unfold LRUCache.ret at 1. now rewrite Hr.
    + cbn [JSMap.first_key JSMap.keys List.map hd_error fst truthy_key].
      destruct (String.eqb k0 EmptyString); cbn [negb].
      * unfold LRUCache.ret at 1. now rewrite Hr.
      * unfold LRUCache.update_map at 1. now rewrite Hr.
  - unfold LRUCache.ret at 1. now rewrite Hr.
Qed.

Lemma stats_eq c :
  LRUCache.stats c =
  Returned (Stats.mk (JSMap.size (LRUCache.map c)) (LRUCache.maxEntries c)
                     (LRUCache.ttlMillis c), c).
Proof. reflexivity. Qed.
End CacheFacts.

(** ** Running calls one after the other *)

Section RunFacts.
Context {V : Type}.
Implicit Types (c : LRUCache.t V) (now : Z) (key k : string) (v : V).
Implicit Types (calls : list (Z * LRUCache.call V)).

Lemma perform_set now key v c :
  LRUCache.perform now (LRUCache.CallSet key v) c =
  Returned (LRUCache.SetReply,
            LRUCache.with_map c
              (JSMap.delete (LRUCache.after_eviction c) key
               ++ [(key, LRUCache.mkEntry v (now + LRUCache.ttlMillis c))])).
Proof.
  unfold LRUCache.perform, LRUCache.bind. now rewrite set_eq.
Qed.

Lemma perform_get now key c r c' :
  LRUCache.get now key c = Returned (r, c') ->
  LRUCache.perform now (LRUCache.CallGet key) c =
  Returned (LRUCache.GetReply r, c').
Proof.
  intros H. unfold LRUCache.perform, LRUCache.bind. now rewrite H.
Qed.

Lemma perform_stats now c :
  LRUCache.perform now LRUCache.CallStats c =
  Returned (LRUCache.StatsReply
              (Stats.mk (JSMap.size (LRUCache.map c)) (LRUCache.maxEntries c)
                        (LRUCache.ttlMillis c)), c).
Proof. reflexivity. Qed.

Lemma run_nil c : LRUCache.run [] c = Returned ([], c).
Proof. reflexivity. Qed.

Lemma run_cons now call calls c r c' :
  LRUCache.perform now call c = Returned (r, c') ->
  LRUCache.run ((now, call) :: calls) c =
  match LRUCache.run calls c' with
  | Returned (rs, c'') => Returned (r :: rs, c'')
  | Thrown e => Thrown e
  end.
Proof.
  intros H. cbn [LRUCache.run]. unfold LRUCache.bind at 1. rewrite H.
  unfold LRUCache.bind, LRUCache.ret.
  destruct (LRUCache.run calls c') as [[rs c'']|err]; reflexivity.
Qed.
End RunFacts.

Ltac run_set :=
  rewrite (run_cons _ _ _ _ _ _ (perform_set _ _ _ _));
  cbn -[Z.add Z.mul LRUCache.run].

Ltac run_get_hit H :=
  erewrite run_cons by (apply perform_get, get_hit; [reflexivity | exact H]);
  cbn -[Z.add Z.mul LRUCache.run].

Ltac run_done := rewrite run_nil; eexists; repeat split; reflexivity.

(** ** The eviction step and the keys it leaves *)

Section EvictionFacts.
Context {V : Type}.
Implicit Types (c : LRUCache.t V) (now : Z) (key k : string) (v : V).

Lemma mem_true_iff (k : string) (l : list string) :
  existsb (String.eqb k) l = true <-> In k l.
Proof.
  rewrite existsb_exists. split.
  - intros [x [Hin Heq]]. apply String.eqb_eq in Heq. now subst.
  - intros Hin. exists k. split; [exact Hin | apply String.eqb_refl].
Qed.

Lemma gone_nil (l after : list string) :
  incl l after ->
  List.filter (fun k => negb (existsb (String.eqb k) after)) l = [].
Proof.
  induction l as [|x l IH]; intros Hincl; simpl; [reflexivity|].
  assert (Hx : existsb (String.eqb x) after = true)
    by (apply mem_true_iff, Hincl; now left).
  rewrite Hx. simpl. apply IH. intros y Hy. apply Hincl. now right.
Qed.

Lemma evicted_spec c c' k :
  In k (LRUCache.evicted c c') <->
  In k (LRUCache.keys c) /\ ~ In k (LRUCache.keys c').
Proof.
  unfold LRUCache.evicted. rewrite filter_In, negb_true_iff.
  pose proof (mem_true_iff k (LRUCache.keys c')) as Hmem.
  destruct (existsb (String.eqb k) (LRUCache.keys c')).
  - split; [intros [_ H]; discriminate|].
    intros [_ H]. exfalso. apply H, Hmem. reflexivity.
  - split; intros [H _]; (split; [exact H|]); [|reflexivity].
    intros Hin. apply Hmem in Hin. discriminate.
Qed.

Lemma after_eviction_keeps c :
  JSMap.size (LRUCache.map c) < LRUCache.maxEntries c ->
  LRUCache.after_eviction c = LRUCache.map c.
Proof.
  intros H. unfold LRUCache.after_eviction.
  replace (JSMap.size (LRUCache.map c) >=? LRUCache.maxEntries c) with false;
    [reflexivity|].
  symmetry. rewrite Z.geb_leb. apply Z.leb_gt. exact H.
Qed.

Lemma after_eviction_evicts c k0 e0 rest :
  LRUCache.maxEntries c <= JSMap.size (LRUCache.map c) ->
  LRUCache.map c = (k0, e0) :: rest ->
  k0 <> EmptyString ->
  JSMap.wf (LRUCache.map c) ->
  LRUCache.after_eviction c = rest.
Proof.
  intros Hfull Hmap Hk0 Hwf. unfold LRUCache.after_eviction.
  replace (JSMap.size (LRUCache.map c) >=? LRUCache.maxEntries c) with true
    by (symmetry; apply Z.geb_le; exact Hfull).
  rewrite Hmap in *. apply String.eqb_neq in Hk0. rewrite Hk0.
  simpl. rewrite String.eqb_refl. apply delete_absent, get_none_iff.
  unfold JSMap.wf in Hwf. simpl in Hwf. now inversion Hwf.
Qed.

Lemma after_eviction_keys c :
  JSMap.keys (LRUCache.after_eviction c) = LRUCache.keys c
  \/ exists k0, JSMap.first_key (LRUCache.map c) = Some k0
        /\ JSMap.keys (LRUCache.after_eviction c)
           = List.filter (differs k0) (LRUCache.keys c).
Proof.
  unfold LRUCache.after_eviction, LRUCache.keys.
  destruct (JSMap.size (LRUCache.map c) >=? LRUCache.maxEntries c);
    [|now left].
  destruct (LRUCache.map c) as [|[k0 e0] rest] eqn:Hmap; [now left|].
  destruct (String.eqb k0 EmptyString); [now left|].
  right. exists k0. split; [reflexivity | apply keys_delete].
Qed.

Lemma after_eviction_incl c :
  incl (JSMap.keys (LRUCache.after_eviction c)) (LRUCache.keys c).
Proof.
  destruct (after_eviction_keys c) as [->|[k0 [_ ->]]].
  - apply incl_refl.
  - intros x Hx. now apply filter_In in Hx.
Qed.

Lemma after_eviction_wf c :
  JSMap.wf (LRUCache.map c) -> JSMap.wf (LRUCache.after_eviction c).
Proof.
  intros Hwf. unfold JSMap.wf.
  destruct (after_eviction_keys c) as [->|[k0 [_ ->]]].
  - exact Hwf.
  - now apply NoDup_filter.
Qed.
End EvictionFacts.

(** ** Eviction by [set] *)

Section SetEviction.
Context {V : Type}.
Implicit Types (c : LRUCache.t V) (now : Z) (key k : string) (v : V).

Lemma set_keys_after now key v c c' :
  LRUCache.set now key v c = Returned (tt, c') ->
  LRUCache.keys c'
  = touch (JSMap.keys (LRUCache.after_eviction c)) key.
Proof.
  rewrite set_eq. intros H. injection H as <-.
  unfold LRUCache.keys, touch. cbn [LRUCache.map LRUCache.with_map].
  now rewrite keys_app, keys_delete.
Qed.

(** A [set] of a stored key on a cache that is not full keeps every key. *)
Lemma set_stored_key_not_full now key v c c' :
  JSMap.size (LRUCache.map c) < LRUCache.maxEntries c ->
  LRUCache.set now key v c = Returned (tt, c') ->
  forall k, In k (LRUCache.keys c) -> In k (LRUCache.keys c').
Proof.
  intros Hroom Hset k Hin. rewrite (set_keys_after _ _ _ _ _ Hset).
  rewrite after_eviction_keeps by exact Hroom. unfold touch.
  apply in_or_app. destruct (String.eqb_spec k key) as [->|Hne].
  - right. now left.
  - left. apply filter_In. split; [exact Hin|]. unfold differs.
    apply negb_true_iff, String.eqb_neq, Hne.
Qed.

(** X16.  On a full cache, a [set] of a stored key that is not the first
    one still deletes the first key: the eviction step does not look at
    the key being set, and the cache ends one entry short. *)
Lemma set_stored_key_full_evicts_first now key v c k0 e0 rest :
  JSMap.wf (LRUCache.map c) ->
  LRUCache.maxEntries c <= JSMap.size (LRUCache.map c) ->
  LRUCache.map c = (k0, e0) :: rest ->
  k0 <> EmptyString ->
  k0 <> key ->
  In key (LRUCache.keys c) ->
  exists c',
    LRUCache.set now key v c = Returned (tt, c')
    /\ In k0 (LRUCache.keys c)
    /\ ~ In k0 (LRUCache.keys c')
    /\ JSMap.size (LRUCache.map c') = JSMap.size (LRUCache.map c) - 1.
Proof.
  intros Hwf Hfull Hmap Hk0 Hne Hin.
  eexists. split; [apply set_eq|].
  assert (Hk0rest : ~ In k0 (JSMap.keys rest)).
  { unfold JSMap.wf in Hwf. rewrite Hmap in Hwf. simpl in Hwf.
    now inversion Hwf. }
  assert (Hwfrest : JSMap.wf rest).
  { unfold JSMap.wf in *. rewrite Hmap in Hwf. simpl in Hwf.
    now inversion Hwf. }
  assert (Hinrest : In key (JSMap.keys rest)).
  { unfold LRUCache.keys in Hin. rewrite Hmap in Hin.
    destruct Hin as [H|H]; [contradiction | exact H]. }
  rewrite (after_eviction_evicts c k0 e0 rest Hfull Hmap Hk0 Hwf).
  unfold LRUCache.keys. cbn [LRUCache.map LRUCache.with_map].
  split; [rewrite Hmap; now left|]. split.
  - rewrite keys_app, keys_delete. intros H. apply in_app_or in H.
    destruct H as [H|[H|[]]]; [|simpl in H; congruence].
    apply filter_In in H. now apply Hk0rest.
  - rewrite size_app, (size_delete_present rest key Hwfrest Hinrest), Hmap.
    unfold JSMap.size. cbn -[Z.of_nat]. lia.
Qed.

(** C2, amended.  On a cache of positive capacity whose first key is not
    the empty string, a [set] of a key that is not stored evicts exactly
    when the number of stored entries, expired ones included, has reached
    the capacity; it then removes one entry, the first in recency order,
    whatever the expiry of that entry and whatever the clock reads, and
    appends the new entry.  Below the capacity it only appends. *)
Theorem C2_set_evicts_on_stored_count now key v c :
  0 < LRUCache.maxEntries c ->
  JSMap.wf (LRUCache.map c) ->
  JSMap.first_key (LRUCache.map c) <> Some EmptyString ->
  JSMap.has (LRUCache.map c) key = false ->
  exists c',
    LRUCache.set now key v c = Returned (tt, c')
    /\ (LRUCache.evicted c c' <> []
        <-> LRUCache.maxEntries c <= JSMap.size (LRUCache.map c))
    /\ (LRUCache.maxEntries c <= JSMap.size (LRUCache.map c) ->
        exists k0 e0 rest,
          LRUCache.map c = (k0, e0) :: rest
          /\ LRUCache.evicted c c' = [k0]
          /\ LRUCache.map c'
             = rest ++ [(key, LRUCache.mkEntry v (now + LRUCache.ttlMillis c))])
    /\ (JSMap.size (LRUCache.map c) < LRUCache.maxEntries c ->
        LRUCache.map c'
        = LRUCache.map c
          ++ [(key, LRUCache.mkEntry v (now + LRUCache.ttlMillis c))]).
Proof.
  intros Hpos Hwf Hfirst Hnew.
  eexists. split; [apply set_eq|].
  apply has_false_iff in Hnew.
  cbn [LRUCache.map LRUCache.with_map].
  destruct (Z_lt_le_dec (JSMap.size (LRUCache.map c)) (LRUCache.maxEntries c))
    as [Hroom|Hfull].
  - (* room left: nothing is evicted *)
    rewrite after_eviction_keeps by exact Hroom.
    rewrite delete_absent by (now apply get_none_iff).
    assert (Hnone : LRUCache.evicted c
                      (LRUCache.with_map c
                         (LRUCache.map c ++
                          [(key, LRUCache.mkEntry v (now + LRUCache.ttlMillis c))]))
                    = []).
    { unfold LRUCache.evicted. apply gone_nil.
      unfold LRUCache.keys. cbn [LRUCache.map LRUCache.with_map].
      rewrite keys_app. apply incl_appl, incl_refl. }
    rewrite Hnone. split; [split; [congruence | lia]|].
    split; [lia | reflexivity].
  - (* full: the first key goes *)
    destruct (LRUCache.map c) as [|[k0 e0] rest] eqn:Hmap.
    { unfold JSMap.size in Hfull. simpl in Hfull. lia. }
    assert (Hk0 : k0 <> EmptyString).
    { intros ->. apply Hfirst. reflexivity. }
    assert (Hk0rest : ~ In k0 (JSMap.keys rest)).
    { unfold JSMap.wf in Hwf. simpl in Hwf. now inversion Hwf. }
    assert (Hk0key : k0 <> key).
    { intros ->. apply Hnew. now left. }
    assert (Hkeyrest : ~ In key (JSMap.keys rest)).
    { intros Hin. apply Hnew. now right. }
    rewrite (after_eviction_evicts c k0 e0 rest)
      by (rewrite ?Hmap; auto).
    rewrite delete_absent by (now apply get_none_iff).
    assert (Hone : LRUCache.evicted c
                     (LRUCache.with_map c
                        (rest ++
                         [(key, LRUCache.mkEntry v (now + LRUCache.ttlMillis c))]))
                   = [k0]).
    { unfold LRUCache.evicted, LRUCache.keys.
      cbn [LRUCache.map LRUCache.with_map]. rewrite Hmap, keys_app.
      change (JSMap.keys ((k0, e0) :: rest)) with (k0 :: JSMap.keys rest).
      change (JSMap.keys [(key, LRUCache.mkEntry v (now + LRUCache.ttlMillis c))])
        with [key].
      cbn [List.filter].
      destruct (existsb (String.eqb k0) (JSMap.keys rest ++ [key])) eqn:Hm.
      - apply mem_true_iff, in_app_or in Hm.
        destruct Hm as [Hm|[Hm|[]]]; [now apply Hk0rest in Hm | congruence].
      - cbn [negb]. f_equal. apply gone_nil, incl_appl, incl_refl. }
    rewrite Hone. split; [split; [intros _; exact Hfull | congruence]|].
    split; [|lia].
    intros _. exists k0, e0, rest. repeat split; reflexivity.
Qed.
End SetEviction.

(** ** Expiry and recency *)

Section ExpiryRecency.
Context {V : Type}.
Implicit Types (c : LRUCache.t V) (now : Z) (key k : string) (v : V).
Implicit Types (e : LRUCache.entry V).

Lemma get_after_set now key v c c1 :
  LRUCache.set now key v c = Returned (tt, c1) ->
  JSMap.get (LRUCache.map c1) key
  = Some (LRUCache.mkEntry v (now + LRUCache.ttlMillis c)).
Proof.
  rewrite set_eq. intros H. injection H as <-.
  cbn [LRUCache.map LRUCache.with_map].
  rewrite get_app_absent by apply get_delete_same.
  simpl. now rewrite String.eqb_refl.
Qed.

(** C4, amended.  After [set(k, v)] at time [t0] on a cache whose TTL is
    [ttl] seconds, the entry stays stored with expiry [t0 + 1000 * ttl]
    whatever the clock reads, and [stats()] counts it at any time.  A
    [get(k)] at [t1] returns [v] when at most [ttl] seconds have elapsed,
    the instant [t0 + 1000 * ttl] included; it removes the entry and
    returns [null] when strictly more than [ttl] seconds have elapsed. *)
Theorem C4_expiry_is_strict_and_lazy (ttl t0 t1 : Z) key v c :
  LRUCache.ttlMillis c = ttl * 1000 ->
  exists c1,
    LRUCache.set t0 key v c = Returned (tt, c1)
    /\ JSMap.get (LRUCache.map c1) key
       = Some (LRUCache.mkEntry v (t0 + ttl * 1000))
    /\ (forall t, exists s,
          LRUCache.perform t LRUCache.CallStats c1
          = Returned (LRUCache.StatsReply s, c1)
          /\ Stats.entries s = JSMap.size (LRUCache.map c1)
          /\ 1 <= Stats.entries s)
    /\ (t1 - t0 <= ttl * 1000 ->
        exists c2, LRUCache.get t1 key c1 = Returned (Some v, c2)
                   /\ In key (LRUCache.keys c2))
    /\ (ttl * 1000 < t1 - t0 ->
        exists c2, LRUCache.get t1 key c1 = Returned (None, c2)
                   /\ ~ In key (LRUCache.keys c2)
                   /\ LRUCache.map c2 = JSMap.delete (LRUCache.map c1) key).
Proof.
  intros Httl.
  destruct (LRUCache.set t0 key v c) as [[[] c1]|err] eqn:Hset;
    [|rewrite set_eq in Hset; discriminate].
  exists c1. split; [reflexivity|].
  pose proof (get_after_set _ _ _ _ _ Hset) as Hget. rewrite Httl in Hget.
  split; [exact Hget|]. split; [|split].
  - intros t. eexists. split; [apply perform_stats|].
    split; [reflexivity|]. cbn [Stats.entries].
    rewrite set_eq in Hset. injection Hset as <-.
    cbn [LRUCache.map LRUCache.with_map]. rewrite size_app.
    pose proof (size_nonneg
                  (JSMap.delete (LRUCache.after_eviction c) key)) as Hn.
    unfold JSMap.size at 2. simpl. lia.
  - intros Hfresh. eexists. split.
    + rewrite (get_hit t1 key c1 _ Hget) by (cbn; lia). reflexivity.
    + unfold LRUCache.keys. cbn [LRUCache.map LRUCache.with_map].
      rewrite keys_app. apply in_or_app. right. now left.
  - intros Hold. eexists. split.
    + rewrite (get_expired t1 key c1 _ Hget) by (cbn; lia). reflexivity.
    + split; [|reflexivity].
      unfold LRUCache.keys. cbn [LRUCache.map LRUCache.with_map].
      apply get_none_iff, get_delete_same.
Qed.

(** C5.  A [get] of a stored, unexpired key returns its value and makes
    the key the last of the recency order, the other keys keeping their
    relative order; every [set] makes its key the last one too.  No other
    call reorders: [stats()] and a [get] of a key that is not stored leave
    the cache as it is, and a [get] of an expired key only takes that key
    out. *)
Theorem C5_recency_promotion now key c e :
  JSMap.get (LRUCache.map c) key = Some e ->
  now <= LRUCache.expiry e ->
  (exists c',
     LRUCache.get now key c = Returned (Some (LRUCache.value e), c')
     /\ LRUCache.keys c' = touch (LRUCache.keys c) key
     /\ exists l, LRUCache.keys c' = l ++ [key])
  /\ (forall t k v, exists c',
        LRUCache.set t k v c = Returned (tt, c')
        /\ LRUCache.keys c' = touch (JSMap.keys (LRUCache.after_eviction c)) k
        /\ exists l, LRUCache.keys c' = l ++ [k])
  /\ (exists s, LRUCache.stats c = Returned (s, c))
  /\ (forall t k, JSMap.get (LRUCache.map c) k = None ->
        LRUCache.get t k c = Returned (None, c))
  /\ (forall t k e', JSMap.get (LRUCache.map c) k = Some e' ->
        LRUCache.expiry e' < t ->
        exists c', LRUCache.get t k c = Returned (None, c')
                   /\ LRUCache.keys c'
                      = List.filter (differs k) (LRUCache.keys c)).
Proof.
  intros Hget Hlive. split; [|split; [|split; [|split]]].
  - eexists. split; [apply (get_hit now key c e Hget Hlive)|].
    assert (Hk : LRUCache.keys
                   (LRUCache.with_map c
                      (JSMap.delete (LRUCache.map c) key ++ [(key, e)]))
                 = touch (LRUCache.keys c) key).
    { unfold LRUCache.keys, touch. cbn [LRUCache.map LRUCache.with_map].
      now rewrite keys_app, keys_delete. }
    split; [exact Hk|]. rewrite Hk. unfold touch. eexists. reflexivity.
  - intros t k v.
    destruct (LRUCache.set t k v c) as [[[] c']|err] eqn:Hset;
      [|rewrite set_eq in Hset; discriminate].
    exists c'. split; [reflexivity|].
    rewrite (set_keys_after _ _ _ _ _ Hset).
    split; [reflexivity|]. unfold touch. eexists. reflexivity.
  - eexists. apply stats_eq.
  - intros t k Hnone. now apply get_miss.
  - intros t k e' Hk Hold. eexists.
    split; [apply (get_expired t k c e' Hk Hold)|].
    unfold LRUCache.keys. cbn [LRUCache.map LRUCache.with_map].
    apply keys_delete.
Qed.
End ExpiryRecency.

(** ** Every call returns *)

Section Totality.
Context {V : Type}.
Implicit Types (c : LRUCache.t V) (now : Z) (key k : string) (v : V).
Implicit Types (calls : list (Z * LRUCache.call V)).

Lemma keeps_refl c added : keeps c c added.
Proof. repeat split; auto. Qed.

Lemma keeps_trans c c' c'' added added' :
  keeps c c' added -> keeps c' c'' added' -> keeps c c'' (added ++ added').
Proof.
  intros (Hm & Ht & Hk & Hw) (Hm' & Ht' & Hk' & Hw').
  repeat split; [congruence | congruence | | auto].
  intros k Hin. rewrite in_app_iff.
  destruct (Hk' k Hin) as [H|H]; [|tauto].
  destruct (Hk k H); tauto.
Qed.

Lemma get_total now key c :
  exists r c', LRUCache.get now key c = Returned (r, c')
               /\ keeps c c' []
               /\ JSMap.size (LRUCache.map c') <= JSMap.size (LRUCache.map c).
Proof.
  destruct (JSMap.get (LRUCache.map c) key) as [e|] eqn:Hg.
  - assert (Hin : In key (LRUCache.keys c)).
    { apply has_true_iff. unfold JSMap.has. now rewrite Hg. }
    destruct (Z_lt_le_dec (LRUCache.expiry e) now) as [Hold|Hlive].
    + eexists; eexists. split; [apply (get_expired now key c e Hg Hold)|].
      split; [repeat split|].
      * intros k Hk. left. unfold LRUCache.keys in *.
        cbn [LRUCache.map LRUCache.with_map] in Hk.
        rewrite keys_delete in Hk. now apply filter_In in Hk.
      * intros Hwf. now apply wf_delete.
      * apply size_delete_le.
    + eexists; eexists. split; [apply (get_hit now key c e Hg Hlive)|].
      split; [repeat split|].
      * intros k Hk. left. unfold LRUCache.keys in *.
        cbn [LRUCache.map LRUCache.with_map] in Hk.
        rewrite keys_app, keys_delete in Hk. apply in_app_or in Hk.
        destruct Hk as [Hk|[<-|[]]]; [now apply filter_In in Hk | exact Hin].
      * intros Hwf. now apply wf_touch.
      * cbn [LRUCache.map LRUCache.with_map]. rewrite size_app.
        pose proof (size_delete_stored (LRUCache.map c) key Hin) as Hs.
        unfold JSMap.size at 2. simpl. lia.
  - exists None, c. split; [now apply get_miss|].
    split; [apply keeps_refl | lia].
Qed.

Lemma set_total now key v c :
  exists c', LRUCache.set now key v c = Returned (tt, c') /\ keeps c c' [key].
Proof.
  eexists. split; [apply set_eq|]. repeat split.
  - intros k Hk. unfold LRUCache.keys in Hk.
    cbn [LRUCache.map LRUCache.with_map] in Hk.
    rewrite keys_app, keys_delete in Hk. apply in_app_or in Hk.
    destruct Hk as [Hk|Hk]; [left | now right].
    apply filter_In in Hk. now apply after_eviction_incl.
  - intros Hwf. cbn [LRUCache.map LRUCache.with_map].
    now apply wf_touch, after_eviction_wf.
Qed.

Lemma perform_total now call c :
  exists r c', LRUCache.perform now call c = Returned (r, c')
               /\ keeps c c' (set_keys [(now, call)]).
Proof.
  destruct call as [key|key v|].
  - destruct (get_total now key c) as (r & c' & Hget & Hkeeps & _).
    exists (LRUCache.GetReply r), c'. split; [now apply perform_get | exact Hkeeps].
  - destruct (set_total now key v c) as (c' & Hset & Hkeeps).
    rewrite set_eq in Hset. injection Hset as <-.
    eexists; eexists. split; [apply perform_set | exact Hkeeps].
  - eexists; eexists. split; [apply perform_stats | apply keeps_refl].
Qed.

Lemma run_total calls c :
  exists rs c', LRUCache.run calls c = Returned (rs, c')
                /\ keeps c c' (set_keys calls)
                /\ List.length rs = List.length calls.
Proof.
  revert c. induction calls as [|[now call] calls IH]; intros c.
  - exists [], c. split; [apply run_nil|]. split; [apply keeps_refl | reflexivity].
  - destruct (perform_total now call c) as (r & c1 & Hp & Hk1).
    destruct (IH c1) as (rs & c' & Hrun & Hk & Hlen).
    exists (r :: rs), c'. split; [|split].
    + rewrite (run_cons _ _ _ _ _ _ Hp), Hrun. reflexivity.
    + replace (set_keys ((now, call) :: calls))
        with (set_keys [(now, call)] ++ set_keys calls)
        by (unfold set_keys; simpl; now rewrite app_nil_r).
      eapply keeps_trans; eassumption.
    + simpl. now rewrite Hlen.
Qed.
End Totality.

(** ** Statistics, construction and misses *)

Section Interface.
Context {V : Type}.
Implicit Types (c : LRUCache.t V) (now : Z) (key k : string) (v : V).
Implicit Types (calls : list (Z * LRUCache.call V)).

Lemma live_stale_size now c :
  JSMap.size (LRUCache.map c)
  = LRUCache.live_count now c + JSMap.size (LRUCache.stale now c).
Proof.
  unfold LRUCache.live_count, LRUCache.live, LRUCache.stale, JSMap.size.
  rewrite <- (filter_length
                (fun b => now >? LRUCache.expiry (snd b)) (LRUCache.map c))
    at 1.
  lia.
Qed.

Lemma run_without_stats calls c :
  exists rs c',
    LRUCache.run calls c = Returned (rs, c')
    /\ LRUCache.run (without_stats calls) c = Returned (other_replies rs, c').
Proof.
  revert c. induction calls as [|[now call] calls IH]; intros c.
  - exists [], c. split; reflexivity.
  - destruct call as [key|key v|].
    + destruct (get_total now key c) as (r & c1 & Hget & _).
      pose proof (perform_get _ _ _ _ _ Hget) as Hp.
      destruct (IH c1) as (rs & c' & Hrun & Hrun').
      exists (LRUCache.GetReply r :: rs), c'.
      cbn [without_stats is_stats_call snd negb List.filter other_replies
           is_stats_reply].
      fold (without_stats calls). fold (other_replies rs).
      rewrite !(run_cons _ _ _ _ _ _ Hp), Hrun, Hrun'. split; reflexivity.
    + pose proof (perform_set now key v c) as Hp.
      destruct (IH (LRUCache.with_map c
                      (JSMap.delete (LRUCache.after_eviction c) key
                       ++ [(key, LRUCache.mkEntry v
                                   (now + LRUCache.ttlMillis c))])))
        as (rs & c' & Hrun & Hrun').
      exists (LRUCache.SetReply :: rs), c'.
      cbn [without_stats is_stats_call snd negb List.filter other_replies
           is_stats_reply].
      fold (without_stats calls). fold (other_replies rs).
      rewrite !(run_cons _ _ _ _ _ _ Hp), Hrun, Hrun'. split; reflexivity.
    + destruct (IH c) as (rs & c' & Hrun & Hrun').
      eexists; exists c'.
      cbn [without_stats is_stats_call snd negb List.filter].
      fold (without_stats calls).
      rewrite (run_cons _ _ _ _ _ _ (perform_stats now c)), Hrun.
      split; [reflexivity|].
      cbn [other_replies is_stats_reply negb List.filter].
      exact Hrun'.
Qed.

(** C7.  [stats()] returns the stored count, the capacity and the TTL in
    milliseconds and leaves the cache object as it was.  The count is the
    number of keys in the recency order: the entries that are live at any
    given instant plus the expired ones that are still stored.  On a cache
    of capacity 2 and a TTL of one second, with [a] set at 0 ms and [b] at
    5000 ms, [stats()] at 5500 ms reports 2 entries although [a] expired
    at 1000 ms, and 1 entry once a [get(a)] has removed it.  [stats()]
    calls, any number of them and at any times, change neither the replies
    of the other calls nor the cache a sequence ends in, whether they come
    before the sequence or anywhere inside it. *)
Theorem C7_stats_is_read_only c (times : list Z) calls (v1 v2 : V) :
  let s := Stats.mk (JSMap.size (LRUCache.map c)) (LRUCache.maxEntries c)
                    (LRUCache.ttlMillis c) in
  LRUCache.stats c = Returned (s, c)
  /\ Stats.entries s = Z.of_nat (List.length (LRUCache.keys c))
  /\ (forall now,
        Stats.entries s
        = Z.of_nat (List.length (LRUCache.live now c))
          + Z.of_nat (List.length (LRUCache.stale now c)))
  /\ (forall now,
        Stats.entries s
        = LRUCache.live_count now c + JSMap.size (LRUCache.stale now c))
  /\ LRUCache.session (Some 2) (Some 1)
       [(0, LRUCache.CallSet "a" v1); (5000, LRUCache.CallSet "b" v2);
        (5500, LRUCache.CallStats); (5500, LRUCache.CallGet "a");
        (5600, LRUCache.CallStats)]
     = Returned
         ([LRUCache.SetReply; LRUCache.SetReply;
           LRUCache.StatsReply (Stats.mk 2 2 1000);
           LRUCache.GetReply None;
           LRUCache.StatsReply (Stats.mk 1 2 1000)],
          LRUCache.mk 2 1000 [("b"%string, LRUCache.mkEntry v2 6000)])
  /\ LRUCache.run
       (List.map (fun t => (t, LRUCache.CallStats)) times ++ calls) c
     = match LRUCache.run calls c with
       | Returned (rs, c') =>
           Returned (List.map (fun _ => LRUCache.StatsReply s) times ++ rs, c')
       | Thrown err => Thrown err
       end
  /\ exists rs c',
       LRUCache.run calls c = Returned (rs, c')
       /\ LRUCache.run (without_stats calls) c
          = Returned (other_replies rs, c').
Proof.
  intros s. split; [apply stats_eq|].
  split; [|split; [|split; [|split; [|split]]]].
  - unfold s. cbn [Stats.entries].
    unfold LRUCache.keys, JSMap.keys, JSMap.size. now rewrite length_map.
  - intros now. unfold s. cbn [Stats.entries].
    rewrite (live_stale_size now c).
    unfold LRUCache.live_count, JSMap.size. reflexivity.
  - intros now. apply live_stale_size.
  - unfold LRUCache.session, LRUCache.constructor.
    run_set. run_set.
    rewrite (run_cons _ _ _ _ _ _ (perform_stats _ _)).
    cbn -[Z.add Z.mul LRUCache.run].
    erewrite run_cons
      by (apply perform_get; eapply get_expired; [reflexivity | cbn; lia]).
    cbn -[Z.add Z.mul LRUCache.run].
    rewrite (run_cons _ _ _ _ _ _ (perform_stats _ _)).
    cbn -[Z.add Z.mul LRUCache.run].
    rewrite run_nil. reflexivity.
  - induction times as [|t times IH]; cbn [List.map app].
    + destruct (LRUCache.run calls c) as [[rs c']|err]; reflexivity.
    + rewrite (run_cons _ _ _ _ _ _ (perform_stats t c)), IH.
      destruct (LRUCache.run calls c) as [[rs c']|err]; reflexivity.
  - apply run_without_stats.
Qed.

(** C8, amended.  Construction never fails: for every capacity, positive
    or not, and every TTL it returns an empty cache holding that capacity
    and the TTL in milliseconds, and no sequence of calls changes either
    of the two. *)
Theorem C8_constructor_accepts_any_capacity (cap ttl : Z) calls :
  LRUCache.constructor (Some cap) (Some ttl)
  = Returned (LRUCache.mk cap (ttl * 1000) ([] : JSMap.t (LRUCache.entry V)))
  /\ exists rs c,
       LRUCache.session (Some cap) (Some ttl) calls = Returned (rs, c)
       /\ LRUCache.maxEntries c = cap
       /\ LRUCache.ttlMillis c = ttl * 1000.
Proof.
  split; [reflexivity|]. unfold LRUCache.session, LRUCache.constructor.
  destruct (run_total calls (LRUCache.mk cap (ttl * 1000) []))
    as (rs & c & Hrun & (Hmax & Httl & _) & _).
  exists rs, c. split; [exact Hrun|]. split; [exact Hmax | exact Httl].
Qed.

(** C9.  A [get] of a key that is not stored returns [null] and leaves
    the cache as it is.  That is the case of a key no [set] of the session
    was called with, of a key a [set] has just evicted, and of a key a
    [get] has just found expired.  No [get] and no [set] throws: each
    returns, in every state and for every key. *)
Theorem C9_miss_returns_null now key c :
  ~ In key (LRUCache.keys c) ->
  LRUCache.get now key c = Returned (None, c)
  /\ (forall maxEntries ttlSeconds calls,
        ~ In key (set_keys calls) ->
        exists rs c',
          LRUCache.session maxEntries ttlSeconds calls = Returned (rs, c')
          /\ LRUCache.get now key c' = Returned (None, c'))
  /\ (forall t k v c' gone,
        LRUCache.set t k v c = Returned (tt, c') ->
        In gone (LRUCache.evicted c c') ->
        LRUCache.get now gone c' = Returned (None, c'))
  /\ (forall t k e,
        JSMap.get (LRUCache.map c) k = Some e -> LRUCache.expiry e < t ->
        exists c', LRUCache.get t k c = Returned (None, c')
                   /\ LRUCache.get now k c' = Returned (None, c'))
  /\ (forall t k, exists r c', LRUCache.get t k c = Returned (r, c'))
  /\ (forall t k v, exists c', LRUCache.set t k v c = Returned (tt, c')).
Proof.
  intros Habsent. split; [|split; [|split; [|split; [|split]]]].
  - apply get_miss, get_none_iff, Habsent.
  - intros maxEntries ttlSeconds calls Hnever.
    unfold LRUCache.session, LRUCache.constructor.
    match goal with |- context [LRUCache.run calls ?c0] =>
      destruct (run_total calls c0) as (rs & c' & Hrun & (_ & _ & Hk & _) & _)
    end.
    exists rs, c'. split; [exact Hrun|].
    apply get_miss, get_none_iff. intros Hin.
    destruct (Hk key Hin) as [[]|H]. contradiction.
  - intros t k v c' gone _ Hgone. apply evicted_spec in Hgone.
    apply get_miss, get_none_iff, Hgone.
  - intros t k e Hk Hold. eexists.
    split; [apply (get_expired t k c e Hk Hold)|].
    apply get_miss. cbn [LRUCache.map LRUCache.with_map].
    apply get_delete_same.
  - intros t k. destruct (get_total t k c) as (r & c' & H & _).
    now exists r, c'.
  - intros t k v. destruct (set_total t k v c) as (c' & H & _).
    now exists c'.
Qed.
End Interface.

(** ** The capacity bound when no key is the empty string *)

Section CapacityBound.
Context {V : Type}.
Implicit Types (c : LRUCache.t V) (now : Z) (key k : string) (v : V).
Implicit Types (calls : list (Z * LRUCache.call V)).

Lemma set_new_key_keys now key v c c' :
  0 < LRUCache.maxEntries c ->
  bounded c ->
  ~ In key (LRUCache.keys c) ->
  LRUCache.set now key v c = Returned (tt, c') ->
  LRUCache.keys c'
  = (if JSMap.size (LRUCache.map c) <? LRUCache.maxEntries c
     then LRUCache.keys c else tl (LRUCache.keys c)) ++ [key].
Proof.
  intros Hpos (Hwf & Hsize & Hne) Hnew Hset.
  rewrite (set_keys_after _ _ _ _ _ Hset). unfold touch. f_equal.
  destruct (Z.ltb_spec (JSMap.size (LRUCache.map c)) (LRUCache.maxEntries c))
    as [Hroom|Hfull].
  - rewrite after_eviction_keeps by exact Hroom.
    now apply filter_differs_absent.
  - unfold LRUCache.keys in *.
    destruct (LRUCache.map c) as [|[k0 e0] rest] eqn:Hmap.
    { unfold JSMap.size in Hfull. simpl in Hfull. lia. }
    rewrite (after_eviction_evicts c k0 e0 rest); rewrite ?Hmap; auto.
    + simpl. apply filter_differs_absent. intros Hin. apply Hnew. now right.
    + intros ->. apply Hne. now left.
Qed.

Lemma set_bounded now key v c c' :
  0 < LRUCache.maxEntries c ->
  key <> EmptyString ->
  bounded c ->
  LRUCache.set now key v c = Returned (tt, c') ->
  bounded c'.
Proof.
  intros Hpos Hkey (Hwf & Hsize & Hne) Hset.
  destruct (set_total now key v c) as (c1 & Hset1 & Hmax & _ & Hk & Hw).
  rewrite Hset in Hset1. injection Hset1 as <-.
  split; [now apply Hw|]. split.
  - rewrite Hmax. rewrite set_eq in Hset. injection Hset as <-.
    cbn [LRUCache.map LRUCache.with_map]. rewrite size_app.
    pose proof (size_delete_le (LRUCache.after_eviction c) key) as Hd.
    assert (Hev : JSMap.size (LRUCache.after_eviction c)
                  <= LRUCache.maxEntries c - 1).
    { destruct (Z_lt_le_dec (JSMap.size (LRUCache.map c))
                            (LRUCache.maxEntries c)) as [Hroom|Hfull].
      - rewrite after_eviction_keeps by exact Hroom. lia.
      - destruct (LRUCache.map c) as [|[k0 e0] rest] eqn:Hmap.
        { unfold JSMap.size in Hfull. simpl in Hfull. lia. }
        rewrite (after_eviction_evicts c k0 e0 rest); rewrite ?Hmap; auto.
        + unfold JSMap.size in *. cbn -[Z.of_nat] in Hsize. lia.
        + intros ->. apply Hne. unfold LRUCache.keys. rewrite Hmap. now left. }
    unfold JSMap.size at 2. simpl. lia.
  - intros Hin. destruct (Hk _ Hin) as [H|[H|[]]]; [now apply Hne | congruence].
Qed.

Lemma get_bounded now key c r c' :
  bounded c -> LRUCache.get now key c = Returned (r, c') -> bounded c'.
Proof.
  intros (Hwf & Hsize & Hne) Hget.
  destruct (get_total now key c) as (r1 & c1 & Hget1 & (Hmax & _ & Hk & Hw) & Hs).
  rewrite Hget in Hget1. injection Hget1 as <- <-.
  split; [now apply Hw|]. split; [lia|].
  intros Hin. destruct (Hk _ Hin) as [H|[]]. now apply Hne.
Qed.

Lemma run_bounded calls c :
  0 < LRUCache.maxEntries c ->
  ~ In EmptyString (set_keys calls) ->
  bounded c ->
  exists rs c', LRUCache.run calls c = Returned (rs, c') /\ bounded c'
                /\ LRUCache.maxEntries c' = LRUCache.maxEntries c.
Proof.
  revert c. induction calls as [|[now call] calls IH]; intros c Hpos Hkeys Hb.
  - exists [], c. split; [apply run_nil | split; [exact Hb | reflexivity]].
  - assert (Hrest : ~ In EmptyString (set_keys calls)).
    { intros Hin. apply Hkeys. unfold set_keys in *. simpl.
      apply in_or_app. now right. }
    destruct (perform_total now call c) as (r & c1 & Hp & Hmax & _).
    assert (Hb1 : bounded c1).
    { destruct call as [key|key v|]; unfold LRUCache.perform, LRUCache.bind in Hp.
      - destruct (LRUCache.get now key c) as [[r0 c0]|] eqn:Hget;
          [|discriminate].
        injection Hp as _ <-. eapply get_bounded; eassumption.
      - destruct (LRUCache.set now key v c) as [[[] c0]|] eqn:Hset;
          [|discriminate].
        injection Hp as _ <-. eapply set_bounded; try eassumption.
        intros ->. apply Hkeys. unfold set_keys. simpl. now left.
      - rewrite stats_eq in Hp. injection Hp as _ <-. exact Hb. }
    destruct (IH c1) as (rs & c' & Hrun & Hb' & Hmax'); [lia | exact Hrest | exact Hb1 |].
    exists (r :: rs), c'. split; [|split; [exact Hb' | congruence]].
    rewrite (run_cons _ _ _ _ _ _ Hp), Hrun. reflexivity.
Qed.

(** On a cache of positive capacity, every sequence of [get], [set] and
    [stats] calls in which no [set] has the empty string as its key ends
    with at most as many stored entries as the capacity. *)
Theorem capacity_bound_without_empty_key (cap ttl : Z) calls :
  0 < cap ->
  ~ In EmptyString (set_keys calls) ->
  exists rs c,
    LRUCache.session (Some cap) (Some ttl) calls = Returned (rs, c)
    /\ JSMap.size (LRUCache.map c) <= cap.
Proof.
  intros Hpos Hkeys. unfold LRUCache.session, LRUCache.constructor.
  destruct (run_bounded calls (LRUCache.mk cap (ttl * 1000) [])) as
    (rs & c & Hrun & (_ & Hsize & _) & Hmax).
  - exact Hpos.
  - exact Hkeys.
  - split; [apply NoDup_nil | split; [unfold JSMap.size; simpl; lia | intros []]].
  - exists rs, c. split; [exact Hrun|]. simpl in Hmax. lia.
Qed.

Lemma lastn_all {A : Type} (n : nat) (l : list A) :
  (List.length l <= n)%nat -> lastn n l = l.
Proof.
  intros H. unfold lastn.
  replace (List.length l - n)%nat with 0%nat by lia. reflexivity.
Qed.

Lemma lastn_cons {A : Type} (n : nat) (x : A) (l : list A) :
  (n <= List.length l)%nat -> lastn n (x :: l) = lastn n l.
Proof.
  intros H. unfold lastn. cbn [List.length].
  replace (S (List.length l) - n)%nat with (S (List.length l - n)) by lia.
  reflexivity.
Qed.

Lemma keys_length c :
  Z.of_nat (List.length (LRUCache.keys c)) = JSMap.size (LRUCache.map c).
Proof.
  unfold LRUCache.keys, JSMap.keys, JSMap.size. now rewrite length_map.
Qed.

Lemma run_sets_keys (kvs : list (Z * (string * V))) c :
  0 < LRUCache.maxEntries c ->
  bounded c ->
  NoDup (List.map (fun b => fst (snd b)) kvs) ->
  ~ In EmptyString (List.map (fun b => fst (snd b)) kvs) ->
  (forall k, In k (List.map (fun b => fst (snd b)) kvs) ->
             ~ In k (LRUCache.keys c)) ->
  exists rs c',
    LRUCache.run (sets kvs) c = Returned (rs, c')
    /\ LRUCache.keys c'
       = lastn (Z.to_nat (LRUCache.maxEntries c))
           (LRUCache.keys c ++ List.map (fun b => fst (snd b)) kvs).
Proof.
  revert c. induction kvs as [|[t [k v]] kvs IH];
    intros c Hpos Hb Hnd Hne Hfresh; cbn [List.map fst snd] in *.
  - exists [], c. split; [apply run_nil|]. rewrite app_nil_r.
    symmetry. apply lastn_all.
    destruct Hb as (_ & Hsize & _). pose proof (keys_length c). lia.
  - inversion Hnd as [|? ? Hk Hnd']; subst.
    destruct (set_total t k v c) as (c1 & Hset & Hmax & _ & Hk1 & _).
    assert (Hknew : ~ In k (LRUCache.keys c)) by (apply Hfresh; now left).
    assert (Hkne : k <> EmptyString) by (intros ->; apply Hne; now left).
    pose proof (set_bounded _ _ _ _ _ Hpos Hkne Hb Hset) as Hb1.
    pose proof (set_new_key_keys _ _ _ _ _ Hpos Hb Hknew Hset) as Hkeys1.
    destruct (IH c1) as (rs & c' & Hrun & Hkeys'); try assumption.
    + lia.
    + intros Hin. apply Hne. now right.
    + intros k' Hin' Hin1. destruct (Hk1 _ Hin1) as [H|[<-|[]]].
      * apply (Hfresh k'); [now right | exact H].
      * contradiction.
    + exists (LRUCache.SetReply :: rs), c'. split.
      * change (sets ((t, (k, v)) :: kvs))
          with ((t, LRUCache.CallSet k v) :: sets kvs).
        rewrite set_eq in Hset. injection Hset as <-.
        rewrite (run_cons _ _ _ _ _ _ (perform_set t k v c)), Hrun.
        reflexivity.
      * rewrite Hkeys', Hmax, Hkeys1.
        destruct (Z.ltb_spec (JSMap.size (LRUCache.map c))
                             (LRUCache.maxEntries c)) as [Hroom|Hfull].
        -- now rewrite <- app_assoc.
        -- destruct Hb as (_ & Hsize & _). pose proof (keys_length c) as Hlen.
           destruct (LRUCache.keys c) as [|k0 ks0] eqn:Hkeys.
           { simpl in Hlen. lia. }
           cbn [tl app]. rewrite <- app_assoc. cbn [app].
           symmetry. apply lastn_cons. rewrite length_app.
           cbn [List.length] in *. lia.
Qed.

(** X17.  On a fresh cache of positive capacity, [set] calls with pairwise
    distinct keys, none of them the empty string, leave exactly the last
    [capacity] of these keys stored, in the order of the calls. *)
Theorem distinct_sets_keep_most_recent (cap ttl : Z)
    (kvs : list (Z * (string * V))) :
  0 < cap ->
  NoDup (List.map (fun b => fst (snd b)) kvs) ->
  ~ In EmptyString (List.map (fun b => fst (snd b)) kvs) ->
  exists rs c,
    LRUCache.session (Some cap) (Some ttl) (sets kvs) = Returned (rs, c)
    /\ LRUCache.keys c
       = lastn (Z.to_nat cap) (List.map (fun b => fst (snd b)) kvs).
Proof.
  intros Hpos Hnd Hne. unfold LRUCache.session, LRUCache.constructor.
  destruct (run_sets_keys kvs (LRUCache.mk cap (ttl * 1000) []))
    as (rs & c & Hrun & Hkeys); try assumption.
  - split; [apply NoDup_nil | split; [unfold JSMap.size; simpl; lia | intros []]].
  - intros k _ [].
  - exists rs, c. split; [exact Hrun | exact Hkeys].
Qed.
End CapacityBound.

(** ** Scenarios on a fresh cache *)

Section Scenarios.
Import LRUCache.
Local Open Scope string_scope.
Local Open Scope list_scope.

(** C6.  A cache of capacity 2 that runs [set(a,1); set(b,2); get(a);
    set(c,3)], the [get] falling within the TTL of [a], ends with exactly
    the keys [a] and [c]: the [get] moved [a] behind [b], so [b] is the
    first key when [c] arrives and is the one evicted. *)
Theorem C6_lru_eviction_order (ttl t1 t2 t3 t4 : Z) :
  t3 <= t1 + ttl * 1000 ->
  exists c,
    session (Some 2) (Some ttl)
      [(t1, CallSet "a" 1); (t2, CallSet "b" 2);
       (t3, CallGet "a"); (t4, CallSet "c" 3)]
    = Returned ([SetReply; SetReply; GetReply (Some 1); SetReply], c)
    /\ keys c = ["a"; "c"].
Proof.
  intros Hlive. unfold session, constructor.
  run_set. run_set. run_get_hit Hlive. run_set. run_done.
Qed.

Lemma C6_lru_eviction_order_witness :
  exists c,
    session (Some 2) (Some 600)
      [(0, CallSet "a" 1); (10, CallSet "b" 2);
       (20, CallGet "a"); (30, CallSet "c" 3)]
    = Returned ([SetReply; SetReply; GetReply (Some 1); SetReply], c)
    /\ keys c = ["a"; "c"].
Proof. apply (C6_lru_eviction_order 600 0 10 20 30). lia. Defined.

(** C10.  The constructor accepts capacity 0.  On the empty cache it
    builds, the eviction step of [set] finds no first key and deletes
    nothing, the entry is inserted all the same, and [stats()] then
    reports 1 entry against a maximum of 0. *)
Theorem C10_zero_capacity_overflows (ttl : option Z) (now : Z)
    (key : string) (v : Z) :
  exists c0 c1 s,
    constructor (Some 0) ttl = Returned c0
    /\ JSMap.first_key (map c0) = None
    /\ after_eviction c0 = map c0
    /\ set now key v c0 = Returned (tt, c1)
    /\ keys c1 = [key]
    /\ stats c1 = Returned (s, c1)
    /\ Stats.entries s = 1
    /\ Stats.maxEntries s = 0
    /\ Stats.maxEntries s < Stats.entries s.
Proof.
  unfold constructor. eexists; eexists; eexists.
  split; [reflexivity|]. split; [reflexivity|]. split; [reflexivity|].
  split; [apply set_eq|].
  split; [reflexivity|]. split; [apply stats_eq|].
  cbn. repeat split; lia.
Qed.

(** C1.  The code evicts before it looks whether the key is stored: on
    a full cache of capacity 2 holding [a] and [b], [set(b, 3)] deletes
    the first key [a] although [b] is only being replaced, and the entry
    count drops from 2 to 1. *)
Theorem C1_set_of_stored_key_evicts (ttl t1 t2 t3 : Z) :
  exists c c',
    session (Some 2) (Some ttl) [(t1, CallSet "a" 1); (t2, CallSet "b" 2)]
    = Returned ([SetReply; SetReply], c)
    /\ keys c = ["a"; "b"]
    /\ JSMap.size (map c) = maxEntries c
    /\ set t3 "b" 3 c = Returned (tt, c')
    /\ keys c' = ["b"]
    /\ evicted c c' = ["a"]
    /\ JSMap.size (map c') = 1.
Proof.
  unfold session, constructor. run_set. run_set. rewrite run_nil.
  eexists; eexists. split; [reflexivity|].
  split; [reflexivity|]. split; [reflexivity|].
  split; [apply set_eq|]. repeat split; reflexivity.
Qed.

(** C3.  Two runs on caches of positive capacity that leave the bound or
    the most recent keys.  With capacity 2, [set(a); set(b); set(c);
    set(c)] touches three distinct keys and ends with the single key [c],
    where the two most recently touched keys are [b] and [c]: the second
    [set(c)] evicted [b].  With capacity 1, [set(""); set(a)] ends with two
    stored entries: the first key is the empty string, which the test
    [if (firstKey)] takes for a missing key. *)
Theorem C3_bound_and_recent_keys_fail (ttl t1 t2 t3 t4 : Z) :
  (exists rs c,
     session (Some 2) (Some ttl)
       [(t1, CallSet "a" 1); (t2, CallSet "b" 2);
        (t3, CallSet "c" 3); (t4, CallSet "c" 4)] = Returned (rs, c)
     /\ keys c = ["c"]
     /\ lastn 2 (recency ["a"; "b"; "c"; "c"]) = ["b"; "c"]
     /\ ~ In "b" (keys c))
  /\
  (exists rs c s,
     session (Some 1) (Some ttl)
       [(t1, CallSet "" 1); (t2, CallSet "a" 2)] = Returned (rs, c)
     /\ keys c = [""; "a"]
     /\ stats c = Returned (s, c)
     /\ Stats.entries s = 2
     /\ Stats.maxEntries s = 1).
Proof.
  split; unfold session, constructor.
  - run_set. run_set. run_set. run_set. rewrite run_nil.
    eexists; eexists. split; [reflexivity|]. split; [reflexivity|].
    split; [reflexivity|]. cbn. intros [H|[]]. discriminate.
  - run_set. run_set. rewrite run_nil.
    eexists; eexists; eexists. split; [reflexivity|]. split; [reflexivity|].
    split; [apply stats_eq|]. split; reflexivity.
Qed.

(** C2 as stated fails.  Capacity 2 and a TTL of one second: [a] is set at
    0 ms and [b] at 5000 ms, so that at 5500 ms [a] has expired and only
    one stored key is live.  The count of live keys differs from the
    capacity and [c] is not stored, and yet [set(c)] evicts [a]: the test
    is on the stored count, which is 2. *)
Lemma C2_counterexample :
  exists c c',
    session (Some 2) (Some 1) [(0, CallSet "a" 1); (5000, CallSet "b" 2)]
    = Returned ([SetReply; SetReply], c)
    /\ set 5500 "c" 3 c = Returned (tt, c')
    /\ live_count 5500 c = 1
    /\ evicted c c' = ["a"]
    /\ ~ (evicted c c' <> []
          <-> live_count 5500 c = maxEntries c
              /\ JSMap.has (map c) "c" = false).
Proof.
  unfold session, constructor. run_set. run_set. rewrite run_nil.
  eexists; eexists. split; [reflexivity|]. split; [apply set_eq|].
  split; [reflexivity|]. split; [reflexivity|].
  intros [Hclaim _].
  assert (Hlive : (1 : Z) = 2); [|discriminate].
  apply Hclaim. discriminate.
Qed.

Lemma C2_set_evicts_on_stored_count_witness :
  let c := mk 2 1000 [("a", mkEntry 1 1000); ("b", mkEntry 2 6000)] in
  (0 < maxEntries c
   /\ JSMap.wf (map c)
   /\ JSMap.first_key (map c) <> Some ""
   /\ JSMap.has (map c) "c" = false)
  /\ exists c',
       set 5500 "c" 3 c = Returned (tt, c') /\ evicted c c' = ["a"].
Proof.
  intros c.
  assert (H1 : 0 < maxEntries c) by (cbn; lia).
  assert (H2 : JSMap.wf (map c)).
  { unfold JSMap.wf. cbn. repeat constructor; cbn; intuition discriminate. }
  assert (H3 : JSMap.first_key (map c) <> Some "") by (cbn; discriminate).
  assert (H4 : JSMap.has (map c) "c" = false) by reflexivity.
  split; [repeat split; assumption|].
  destruct (C2_set_evicts_on_stored_count 5500 "c" 3 c H1 H2 H3 H4)
    as (c' & Hset & _ & Hfull & _).
  exists c'. split; [exact Hset|].
  destruct Hfull as (k0 & e0 & rest & Hmap & Hev & _); [cbn; lia|].
  rewrite Hev. injection Hmap as <- _ _. reflexivity.
Defined.

(** C4 as stated fails.  With a TTL of one second, a [get] exactly 1000 ms
    after the [set] still returns the value: the entry expires only when
    the clock has passed its expiry. *)
Lemma C4_counterexample :
  1 * 1000 <= 1000 - 0
  /\ (exists c,
        session (Some 200) (Some 1) [(0, CallSet "k" 7); (1000, CallGet "k")]
        = Returned ([SetReply; GetReply (Some 7)], c))
  /\ ~ (exists c,
          session (Some 200) (Some 1)
            [(0, CallSet "k" 7); (1000, CallGet "k")]
          = Returned ([SetReply; GetReply None], c)).
Proof.
  assert (Hrun : exists c,
             session (Some 200) (Some 1)
               [(0, CallSet "k" 7); (1000, CallGet "k")]
             = Returned ([SetReply; GetReply (Some 7)], c)).
  { unfold session, constructor. run_set.
    erewrite run_cons by (apply perform_get, get_hit; [reflexivity | cbn; lia]).
    run_done. }
  split; [lia|]. split; [exact Hrun|].
  destruct Hrun as [c Hrun]. intros [c' Hnone].
  rewrite Hrun in Hnone. discriminate.
Qed.

Lemma C4_expiry_is_strict_and_lazy_witness :
  let c := mk 200 (1 * 1000) ([] : JSMap.t (entry Z)) in
  ttlMillis c = 1 * 1000
  /\ exists c1,
       set 0 "k" 7 c = Returned (tt, c1)
       /\ (exists c2, get 1000 "k" c1 = Returned (Some 7, c2))
       /\ (exists c2, get 1001 "k" c1 = Returned (None, c2)).
Proof.
  intros c. split; [reflexivity|].
  destruct (C4_expiry_is_strict_and_lazy 1 0 1000 "k" 7 c eq_refl)
    as (c1 & Hset & _ & _ & Hfresh & _).
  destruct (C4_expiry_is_strict_and_lazy 1 0 1001 "k" 7 c eq_refl)
    as (c1' & Hset' & _ & _ & _ & Hold).
  rewrite Hset in Hset'. injection Hset' as <-.
  exists c1. split; [exact Hset|]. split.
  - destruct Hfresh as (c2 & Hget & _); [lia|]. now exists c2.
  - destruct Hold as (c2 & Hget & _); [lia|]. now exists c2.
Defined.

Lemma C5_recency_promotion_witness :
  let c := mk 2 600000 [("a", mkEntry 1 600000); ("b", mkEntry 2 600010)] in
  let e := mkEntry 1 600000 in
  (JSMap.get (map c) "a" = Some e /\ 20 <= expiry e)
  /\ exists c', get 20 "a" c = Returned (Some 1, c') /\ keys c' = ["b"; "a"].
Proof.
  intros c e.
  assert (H1 : JSMap.get (map c) "a" = Some e) by reflexivity.
  assert (H2 : 20 <= expiry e) by (cbn; lia).
  split; [split; assumption|].
  destruct (C5_recency_promotion 20 "a" c e H1 H2)
    as ((c' & Hget & Hkeys & _) & _).
  exists c'. split; [exact Hget | exact Hkeys].
Defined.

(** C8 as stated fails.  The constructor returns a cache for capacity 0,
    and for capacity -5: it throws no error, and no other one of its
    paths does. *)
Lemma C8_counterexample :
  0 <= 0
  /\ @constructor Z (Some 0) (Some 600) = Returned (mk 0 600000 [])
  /\ @constructor Z (Some (-5)) (Some 600) = Returned (mk (-5) 600000 [])
  /\ ~ (exists err, @constructor Z (Some 0) (Some 600) = Thrown err).
Proof.
  split; [lia|]. split; [reflexivity|]. split; [reflexivity|].
  intros [err H]. discriminate.
Qed.

Lemma C9_miss_returns_null_witness :
  let c := mk 2 600000 [("a", mkEntry 1 600000)] in
  ~ In "paris" (keys c)
  /\ get 20 "paris" c = Returned (None, c).
Proof.
  intros c.
  assert (H : ~ In "paris" (keys c)) by (cbn; intuition discriminate).
  split; [exact H|].
  exact (proj1 (C9_miss_returns_null 20 "paris" c H)).
Defined.
End Scenarios.

(** ** What a call does to the bindings *)

Section Lookups.
Context {V : Type}.
Implicit Types (c : LRUCache.t V) (now : Z) (key k : string) (v : V).
Implicit Types (e : LRUCache.entry V).

Lemma get_snoc_other (m : JSMap.t (LRUCache.entry V)) key e k :
  k <> key -> JSMap.get (m ++ [(key, e)]) k = JSMap.get m k.
Proof.
  intros Hne. induction m as [|[k0 e0] m IH]; simpl.
  - destruct (String.eqb_spec key k); [congruence | reflexivity].
  - destruct (String.eqb k0 k); [reflexivity | exact IH].
Qed.

Lemma get_snoc_same (m : JSMap.t (LRUCache.entry V)) key e :
  JSMap.get m key = None -> JSMap.get (m ++ [(key, e)]) key = Some e.
Proof.
  intros H. rewrite get_app_absent by exact H.
  simpl. now rewrite String.eqb_refl.
Qed.

(** The binding of a key after it was deleted and appended again. *)
Lemma get_touched (m : JSMap.t (LRUCache.entry V)) key e k :
  JSMap.get (JSMap.delete m key ++ [(key, e)]) k
  = if String.eqb k key then Some e else JSMap.get m k.
Proof.
  destruct (String.eqb_spec k key) as [->|Hne].
  - apply get_snoc_same, get_delete_same.
  - rewrite get_snoc_other by exact Hne. now apply get_delete_other.
Qed.

Lemma get_after_eviction c k :
  JSMap.first_key (LRUCache.map c) <> Some k ->
  JSMap.get (LRUCache.after_eviction c) k = JSMap.get (LRUCache.map c) k.
Proof.
  intros Hfirst. unfold LRUCache.after_eviction.
  destruct (JSMap.size (LRUCache.map c) >=? LRUCache.maxEntries c);
    [|reflexivity].
  destruct (LRUCache.map c) as [|[k0 e0] rest] eqn:Hmap; [reflexivity|].
  destruct (String.eqb k0 EmptyString); [reflexivity|].
  apply get_delete_other. intros ->. apply Hfirst. reflexivity.
Qed.

Lemma get_after_eviction_some c k e :
  JSMap.get (LRUCache.after_eviction c) k = Some e ->
  JSMap.get (LRUCache.map c) k = Some e.
Proof.
  unfold LRUCache.after_eviction.
  destruct (JSMap.size (LRUCache.map c) >=? LRUCache.maxEntries c);
    [|trivial].
  destruct (LRUCache.map c) as [|[k0 e0] rest] eqn:Hmap; [trivial|].
  destruct (String.eqb k0 EmptyString); [trivial|].
  destruct (String.eqb_spec k k0) as [->|Hne].
  - now rewrite get_delete_same.
  - now rewrite get_delete_other.
Qed.

(** What [get] returns and what it leaves bound, in every state. *)
Lemma get_cases now key c :
  exists r c',
    LRUCache.get now key c = Returned (r, c')
    /\ (forall k, k <> key ->
          JSMap.get (LRUCache.map c') k = JSMap.get (LRUCache.map c) k)
    /\ match r with
       | Some v =>
           exists e, JSMap.get (LRUCache.map c) key = Some e
                     /\ LRUCache.value e = v
                     /\ now <= LRUCache.expiry e
                     /\ JSMap.get (LRUCache.map c') key = Some e
       | None => JSMap.get (LRUCache.map c') key = None
       end.
Proof.
  destruct (JSMap.get (LRUCache.map c) key) as [e|] eqn:Hg.
  - destruct (Z_lt_le_dec (LRUCache.expiry e) now) as [Hold|Hlive].
    + eexists; eexists. split; [apply (get_expired now key c e Hg Hold)|].
      cbn [LRUCache.map LRUCache.with_map]. split.
      * intros k Hne. now apply get_delete_other.
      * apply get_delete_same.
    + eexists; eexists. split; [apply (get_hit now key c e Hg Hlive)|].
      cbn [LRUCache.map LRUCache.with_map]. split.
      * intros k Hne. rewrite get_touched.
        destruct (String.eqb_spec k key); [contradiction | reflexivity].
      * exists e. repeat split; try assumption.
        rewrite get_touched. now rewrite String.eqb_refl.
  - exists None, c. split; [now apply get_miss|]. split; [reflexivity | exact Hg].
Qed.

(** What [set] leaves bound, in every state. *)
Lemma set_cases now key v c :
  exists c',
    LRUCache.set now key v c = Returned (tt, c')
    /\ LRUCache.maxEntries c' = LRUCache.maxEntries c
    /\ LRUCache.ttlMillis c' = LRUCache.ttlMillis c
    /\ JSMap.get (LRUCache.map c') key
       = Some (LRUCache.mkEntry v (now + LRUCache.ttlMillis c))
    /\ (forall k, k <> key ->
          JSMap.get (LRUCache.map c') k
          = JSMap.get (LRUCache.after_eviction c) k).
Proof.
  eexists. split; [apply set_eq|].
  cbn [LRUCache.map LRUCache.with_map LRUCache.maxEntries LRUCache.ttlMillis].
  split; [reflexivity|]. split; [reflexivity|]. split.
  - rewrite get_touched. now rewrite String.eqb_refl.
  - intros k Hne. rewrite get_touched.
    destruct (String.eqb_spec k key); [contradiction | reflexivity].
Qed.
End Lookups.

(** ** Values, expiry and the other keys *)

Section CacheProperties.
Context {V : Type}.
Implicit Types (c : LRUCache.t V) (now : Z) (key k : string) (v : V).
Implicit Types (e : LRUCache.entry V).
Implicit Types (calls : list (Z * LRUCache.call V)).

(** X1.  [get] never returns an expired or unknown value: when it returns
    a value, the key was bound to an entry with that value whose expiry
    the clock had not passed. *)
Theorem get_returns_only_live_values now key c v c' :
  LRUCache.get now key c = Returned (Some v, c') ->
  exists e,
    JSMap.get (LRUCache.map c) key = Some e
    /\ LRUCache.value e = v
    /\ now <= LRUCache.expiry e.
Proof.
  intros Hget.
  destruct (get_cases now key c) as (r & c1 & Hget1 & _ & Hr).
  rewrite Hget in Hget1. injection Hget1 as <- <-.
  destruct Hr as (e & Hb & Hv & Hlive & _). now exists e.
Qed.

(** X2.  A hit does not prolong an entry: [get] puts the entry back with
    the expiry it had, so a later [get] past that expiry misses and removes
    the key, however recent the hit was. *)
Theorem get_hit_keeps_expiry now later key c e :
  JSMap.get (LRUCache.map c) key = Some e ->
  now <= LRUCache.expiry e ->
  LRUCache.expiry e < later ->
  exists c1 c2,
    LRUCache.get now key c = Returned (Some (LRUCache.value e), c1)
    /\ JSMap.get (LRUCache.map c1) key = Some e
    /\ LRUCache.get later key c1 = Returned (None, c2)
    /\ ~ In key (LRUCache.keys c2).
Proof.
  intros Hb Hlive Hold.
  set (c1 := LRUCache.with_map c
               (JSMap.delete (LRUCache.map c) key ++ [(key, e)])).
  assert (Hb1 : JSMap.get (LRUCache.map c1) key = Some e).
  { unfold c1. cbn [LRUCache.map LRUCache.with_map].
    rewrite get_touched. now rewrite String.eqb_refl. }
  exists c1. eexists. split; [apply (get_hit now key c e Hb Hlive)|].
  split; [exact Hb1|]. split.
  - apply (get_expired later key c1 e Hb1 Hold).
  - unfold LRUCache.keys. cbn [LRUCache.map LRUCache.with_map].
    apply get_none_iff, get_delete_same.
Qed.

(** X3.  A second [set] of a key replaces the value and restarts the TTL:
    after [set(k, v1)] at [t1] and [set(k, v2)] at [t2], a [get(k)] within
    one TTL of [t2] returns [v2], also when the TTL counted from [t1] has
    run out. *)
Theorem set_overwrites_value_and_expiry t1 t2 t3 key (v1 v2 : V) c :
  t3 <= t2 + LRUCache.ttlMillis c ->
  exists c1 c2 c3,
    LRUCache.set t1 key v1 c = Returned (tt, c1)
    /\ LRUCache.set t2 key v2 c1 = Returned (tt, c2)
    /\ JSMap.get (LRUCache.map c2) key
       = Some (LRUCache.mkEntry v2 (t2 + LRUCache.ttlMillis c))
    /\ LRUCache.get t3 key c2 = Returned (Some v2, c3).
Proof.
  intros Hlive.
  destruct (set_cases t1 key v1 c) as (c1 & Hset1 & _ & Httl1 & _).
  destruct (set_cases t2 key v2 c1) as (c2 & Hset2 & _ & _ & Hb2 & _).
  rewrite Httl1 in Hb2.
  exists c1, c2. eexists. split; [exact Hset1|]. split; [exact Hset2|].
  split; [exact Hb2|].
  rewrite (get_hit t3 key c2 _ Hb2) by (cbn; lia). reflexivity.
Qed.

(** X4.  A call touches no binding but its own key's and, in [set], the
    first key's: [get(key)] leaves every other key bound as it was, and
    [set(key, v)] leaves every other key but the first one bound as it was;
    below the capacity it leaves the first key too. *)
Theorem other_keys_keep_their_bindings now key c :
  (exists r c',
     LRUCache.get now key c = Returned (r, c')
     /\ forall k, k <> key ->
          JSMap.get (LRUCache.map c') k = JSMap.get (LRUCache.map c) k)
  /\ (forall v, exists c',
        LRUCache.set now key v c = Returned (tt, c')
        /\ (forall k, k <> key ->
              JSMap.first_key (LRUCache.map c) <> Some k ->
              JSMap.get (LRUCache.map c') k = JSMap.get (LRUCache.map c) k)
        /\ (JSMap.size (LRUCache.map c) < LRUCache.maxEntries c ->
            forall k, k <> key ->
              JSMap.get (LRUCache.map c') k = JSMap.get (LRUCache.map c) k)).
Proof.
  split.
  - destruct (get_cases now key c) as (r & c' & Hget & Hother & _).
    now exists r, c'.
  - intros v.
    destruct (set_cases now key v c) as (c' & Hset & _ & _ & _ & Hother).
    exists c'. split; [exact Hset|]. split.
    + intros k Hne Hfirst. rewrite (Hother k Hne).
      now apply get_after_eviction.
    + intros Hroom k Hne. rewrite (Hother k Hne).
      now rewrite after_eviction_keeps.
Qed.

(** X5.  Below the capacity, a [set] of a stored key is a pure refresh:
    the key moves to the end of the order, no key leaves and the number of
    entries stays the same. *)
Theorem set_stored_key_below_capacity now key v c :
  JSMap.wf (LRUCache.map c) ->
  JSMap.size (LRUCache.map c) < LRUCache.maxEntries c ->
  In key (LRUCache.keys c) ->
  exists c',
    LRUCache.set now key v c = Returned (tt, c')
    /\ LRUCache.keys c' = touch (LRUCache.keys c) key
    /\ LRUCache.evicted c c' = []
    /\ JSMap.size (LRUCache.map c') = JSMap.size (LRUCache.map c).
Proof.
  intros Hwf Hroom Hin.
  destruct (set_total now key v c) as (c' & Hset & _).
  exists c'. split; [exact Hset|].
  pose proof (set_keys_after _ _ _ _ _ Hset) as Hkeys.
  rewrite after_eviction_keeps in Hkeys by exact Hroom.
  split; [exact Hkeys|]. split.
  - unfold LRUCache.evicted. apply gone_nil. intros k Hk.
    apply (set_stored_key_not_full _ _ _ _ _ Hroom Hset k Hk).
  - rewrite set_eq in Hset. injection Hset as <-.
    cbn [LRUCache.map LRUCache.with_map].
    rewrite after_eviction_keeps by exact Hroom.
    rewrite size_app, (size_delete_present _ key Hwf Hin).
    unfold JSMap.size at 2. simpl. lia.
Qed.

(** X6.  Whatever the configuration and the calls, the cache a session
    ends in stores no key twice and only keys that a [set] of the session
    was called with, and the session has one reply per call. *)
Theorem session_keys_distinct_and_set (maxEntries ttlSeconds : option Z) calls :
  exists rs c,
    LRUCache.session maxEntries ttlSeconds calls = Returned (rs, c)
    /\ NoDup (LRUCache.keys c)
    /\ (forall k, In k (LRUCache.keys c) -> In k (set_keys calls))
    /\ List.length rs = List.length calls.
Proof.
  unfold LRUCache.session, LRUCache.constructor.
  match goal with |- context [LRUCache.run calls ?c0] =>
    destruct (run_total calls c0) as (rs & c & Hrun & (_ & _ & Hk & Hw) & Hlen)
  end.
  exists rs, c. split; [exact Hrun|]. split; [|split; [|exact Hlen]].
  - apply Hw. apply NoDup_nil.
  - intros k Hin. destruct (Hk k Hin) as [[]|H]. exact H.
Qed.
End CacheProperties.

(** ** The bound for every capacity, and where it stops holding *)

Section Bounds.
Context {V : Type}.
Implicit Types (c : LRUCache.t V) (now : Z) (key k : string) (v : V).
Implicit Types (e : LRUCache.entry V).
Implicit Types (calls : list (Z * LRUCache.call V)).

Lemma after_eviction_size c :
  JSMap.wf (LRUCache.map c) ->
  ~ In EmptyString (LRUCache.keys c) ->
  JSMap.size (LRUCache.map c) <= Z.max (LRUCache.maxEntries c) 1 ->
  JSMap.size (LRUCache.after_eviction c)
  <= Z.max (LRUCache.maxEntries c) 1 - 1.
Proof.
  intros Hwf Hne Hsize.
  destruct (Z_lt_le_dec (JSMap.size (LRUCache.map c)) (LRUCache.maxEntries c))
    as [Hroom|Hfull].
  - rewrite after_eviction_keeps by exact Hroom. lia.
  - destruct (LRUCache.map c) as [|[k0 e0] rest] eqn:Hmap.
    + unfold LRUCache.after_eviction. rewrite Hmap.
      destruct (JSMap.size [] >=? LRUCache.maxEntries c);
        unfold JSMap.size; simpl; lia.
    + rewrite (after_eviction_evicts c k0 e0 rest); rewrite ?Hmap; auto.
      * unfold JSMap.size in *. cbn -[Z.of_nat Z.max] in Hsize. lia.
      * intros ->. apply Hne. unfold LRUCache.keys. rewrite Hmap. now left.
Qed.

Lemma set_within_bound now key v c c' :
  key <> EmptyString ->
  within_bound c ->
  LRUCache.set now key v c = Returned (tt, c') ->
  within_bound c'.
Proof.
  intros Hkey (Hwf & Hsize & Hne) Hset.
  destruct (set_total now key v c) as (c1 & Hset1 & Hmax & _ & Hk & Hw).
  rewrite Hset in Hset1. injection Hset1 as <-.
  split; [now apply Hw|]. split.
  - rewrite Hmax. rewrite set_eq in Hset. injection Hset as <-.
    cbn [LRUCache.map LRUCache.with_map]. rewrite size_app.
    pose proof (size_delete_le (LRUCache.after_eviction c) key) as Hd.
    pose proof (after_eviction_size c Hwf Hne Hsize) as Hev.
    unfold JSMap.size at 2. simpl. lia.
  - intros Hin. destruct (Hk _ Hin) as [H|[H|[]]]; [now apply Hne | congruence].
Qed.

Lemma get_within_bound now key c r c' :
  within_bound c -> LRUCache.get now key c = Returned (r, c') ->
  within_bound c'.
Proof.
  intros (Hwf & Hsize & Hne) Hget.
  destruct (get_total now key c)
    as (r1 & c1 & Hget1 & (Hmax & _ & Hk & Hw) & Hs).
  rewrite Hget in Hget1. injection Hget1 as <- <-.
  split; [now apply Hw|]. split; [rewrite Hmax; lia|].
  intros Hin. destruct (Hk _ Hin) as [H|[]]. now apply Hne.
Qed.



Lemma after_eviction_empty_first c :
  JSMap.first_key (LRUCache.map c) = Some EmptyString ->
  LRUCache.after_eviction c = LRUCache.map c.
Proof.
  intros Hfirst. unfold LRUCache.after_eviction.
  destruct (JSMap.size (LRUCache.map c) >=? LRUCache.maxEntries c);
    [|reflexivity].
  destruct (LRUCache.map c) as [|[k0 e0] rest]; [reflexivity|].
  injection Hfirst as ->. reflexivity.
Qed.

(** X8.  Once the empty string is the first key of the order, no [set] of
    a new key evicts anything, whatever the capacity: [set] calls with
    distinct new keys append them all, and the cache grows by one entry
    per call. *)
Theorem empty_first_key_blocks_eviction (kvs : list (Z * (string * V))) c :
  JSMap.first_key (LRUCache.map c) = Some EmptyString ->
  NoDup (List.map (fun b => fst (snd b)) kvs) ->
  (forall k, In k (List.map (fun b => fst (snd b)) kvs) ->
             ~ In k (LRUCache.keys c)) ->
  exists rs c',
    LRUCache.run (sets kvs) c = Returned (rs, c')
    /\ LRUCache.keys c'
       = LRUCache.keys c ++ List.map (fun b => fst (snd b)) kvs
    /\ JSMap.size (LRUCache.map c')
       = JSMap.size (LRUCache.map c) + Z.of_nat (List.length kvs).
Proof.
  revert c. induction kvs as [|[t [k v]] kvs IH];
    intros c Hfirst Hnd Hfresh; cbn [List.map fst snd] in *.
  - exists [], c. split; [apply run_nil|]. rewrite app_nil_r.
    split; [reflexivity | simpl; lia].
  - inversion Hnd as [|? ? Hk Hnd']; subst.
    assert (Hknew : ~ In k (LRUCache.keys c)) by (apply Hfresh; now left).
    set (c1 := LRUCache.with_map c
                 (LRUCache.map c
                  ++ [(k, LRUCache.mkEntry v (t + LRUCache.ttlMillis c))])).
    assert (Hp : LRUCache.perform t (LRUCache.CallSet k v) c
                 = Returned (LRUCache.SetReply, c1)).
    { rewrite perform_set, (after_eviction_empty_first c Hfirst).
      rewrite delete_absent by (now apply get_none_iff). reflexivity. }
    assert (Hkeys1 : LRUCache.keys c1 = LRUCache.keys c ++ [k]).
    { unfold LRUCache.keys, c1. cbn [LRUCache.map LRUCache.with_map].
      now rewrite keys_app. }
    destruct (IH c1) as (rs & c' & Hrun & Hkeys & Hsize).
    + unfold c1. cbn [LRUCache.map LRUCache.with_map].
      destruct (LRUCache.map c) as [|[k0 e0] rest]; [discriminate|].
      exact Hfirst.
    + exact Hnd'.
    + intros k' Hin'. rewrite Hkeys1. intros Hin1.
      apply in_app_or in Hin1. destruct Hin1 as [H|[<-|[]]].
      * apply (Hfresh k'); [now right | exact H].
      * contradiction.
    + exists (LRUCache.SetReply :: rs), c'. split; [|split].
      * change (sets ((t, (k, v)) :: kvs))
          with ((t, LRUCache.CallSet k v) :: sets kvs).
        rewrite (run_cons _ _ _ _ _ _ Hp), Hrun. reflexivity.
      * rewrite Hkeys, Hkeys1, <- app_assoc. reflexivity.
      * rewrite Hsize. unfold c1. cbn [LRUCache.map LRUCache.with_map].
        rewrite size_app. unfold JSMap.size at 2. cbn -[Z.of_nat]. lia.
Qed.

(** X9.  A [get] that finds its key expired frees the slot: on a cache
    within its capacity, the next [set] of a new key evicts nothing and
    the keys are the old ones without the expired key, then the new key. *)
Theorem expired_get_frees_a_slot t t' key key' v c e :
  JSMap.wf (LRUCache.map c) ->
  JSMap.size (LRUCache.map c) <= LRUCache.maxEntries c ->
  JSMap.get (LRUCache.map c) key = Some e ->
  LRUCache.expiry e < t ->
  ~ In key' (LRUCache.keys c) ->
  exists c1 c2,
    LRUCache.get t key c = Returned (None, c1)
    /\ LRUCache.set t' key' v c1 = Returned (tt, c2)
    /\ LRUCache.keys c2
       = List.filter (differs key) (LRUCache.keys c) ++ [key']
    /\ LRUCache.evicted c1 c2 = [].
Proof.
  intros Hwf Hsize Hb Hold Hnew.
  set (c1 := LRUCache.with_map c (JSMap.delete (LRUCache.map c) key)).
  assert (Hin : In key (LRUCache.keys c)).
  { apply has_true_iff. unfold JSMap.has. now rewrite Hb. }
  assert (Hroom : JSMap.size (LRUCache.map c1) < LRUCache.maxEntries c1).
  { unfold c1. cbn [LRUCache.map LRUCache.with_map LRUCache.maxEntries].
    rewrite (size_delete_present _ key Hwf Hin). lia. }
  assert (Hkeys1 : LRUCache.keys c1
                   = List.filter (differs key) (LRUCache.keys c)).
  { unfold LRUCache.keys, c1. cbn [LRUCache.map LRUCache.with_map].
    apply keys_delete. }
  assert (Hnew1 : ~ In key' (LRUCache.keys c1)).
  { rewrite Hkeys1. intros H. apply filter_In in H. now apply Hnew. }
  destruct (set_total t' key' v c1) as (c2 & Hset & _).
  exists c1, c2. split; [apply (get_expired t key c e Hb Hold)|].
  split; [exact Hset|].
  pose proof (set_keys_after _ _ _ _ _ Hset) as Hkeys2.
  rewrite after_eviction_keeps in Hkeys2 by exact Hroom.
  fold (LRUCache.keys c1) in Hkeys2. unfold touch in Hkeys2.
  rewrite filter_differs_absent in Hkeys2 by exact Hnew1.
  split; [now rewrite Hkeys2, Hkeys1|].
  unfold LRUCache.evicted. apply gone_nil. rewrite Hkeys2.
  apply incl_appl, incl_refl.
Qed.
End Bounds.

(** ** Where a returned value comes from *)

Section Provenance.
Context {V : Type}.
Implicit Types (c : LRUCache.t V) (now : Z) (key k : string) (v : V).
Implicit Types (calls hist : list (Z * LRUCache.call V)).

Lemma run_app_inv calls1 calls2 c rs c' :
  LRUCache.run (calls1 ++ calls2) c = Returned (rs, c') ->
  exists rs1 c1 rs2,
    LRUCache.run calls1 c = Returned (rs1, c1)
    /\ LRUCache.run calls2 c1 = Returned (rs2, c')
    /\ rs = rs1 ++ rs2.
Proof.
  revert c rs. induction calls1 as [|[now call] calls1 IH]; intros c rs Hrun.
  - exists [], c, rs. split; [apply run_nil|]. split; [exact Hrun | reflexivity].
  - destruct (perform_total now call c) as (r & c1 & Hp & _).
    cbn [app] in Hrun. rewrite (run_cons _ _ _ _ _ _ Hp) in Hrun.
    destruct (LRUCache.run (calls1 ++ calls2) c1) as [[rs' c'']|err] eqn:Hrest;
      [|discriminate].
    injection Hrun as <- <-.
    destruct (IH c1 rs' Hrest) as (rs1 & c2 & rs2 & Hrun1 & Hrun2 & ->).
    exists (r :: rs1), c2, rs2. split; [|split; [exact Hrun2 | reflexivity]].
    rewrite (run_cons _ _ _ _ _ _ Hp), Hrun1. reflexivity.
Qed.

Lemma provenance_more hist hist' c :
  provenance hist c -> provenance (hist ++ hist') c.
Proof.
  intros Hprov k e Hb. destruct (Hprov k e Hb) as (t0 & Hin & Hexp).
  exists t0. split; [apply in_or_app; now left | exact Hexp].
Qed.

Lemma perform_provenance hist now call c r c' :
  provenance hist c ->
  LRUCache.perform now call c = Returned (r, c') ->
  provenance (hist ++ [(now, call)]) c'.
Proof.
  intros Hprov Hp. destruct call as [key|key v|];
    unfold LRUCache.perform, LRUCache.bind in Hp.
  - (* get: the bindings are old ones *)
    destruct (get_total now key c) as (r1 & c1 & Hget & (_ & Httl & _) & _).
    destruct (get_cases now key c) as (r2 & c2 & Hget2 & Hother & Hown).
    rewrite Hget in Hget2. injection Hget2 as <- <-.
    rewrite Hget in Hp. injection Hp as _ <-.
    intros k e Hb. rewrite Httl.
    assert (Hold : JSMap.get (LRUCache.map c) k = Some e).
    { destruct (String.eqb_spec k key) as [->|Hne].
      - destruct r1 as [v|].
        + destruct Hown as (e' & Hb' & _ & _ & Hb1). congruence.
        + congruence.
      - now rewrite <- (Hother k Hne). }
    now apply provenance_more.
  - (* set: the new binding is this call's, the others are old ones *)
    destruct (set_cases now key v c) as (c1 & Hset & _ & Httl & Hown & Hother).
    rewrite Hset in Hp. injection Hp as _ <-.
    intros k e Hb. rewrite Httl.
    destruct (String.eqb_spec k key) as [->|Hne].
    + rewrite Hown in Hb. injection Hb as <-. exists now.
      split; [apply in_or_app; right; now left | reflexivity].
    + rewrite (Hother k Hne) in Hb. apply get_after_eviction_some in Hb.
      now apply provenance_more.
  - rewrite stats_eq in Hp. injection Hp as _ <-. now apply provenance_more.
Qed.

Lemma run_provenance calls hist c rs c' :
  provenance hist c ->
  LRUCache.run calls c = Returned (rs, c') ->
  provenance (hist ++ calls) c'.
Proof.
  revert hist c rs. induction calls as [|[now call] calls IH];
    intros hist c rs Hprov Hrun.
  - rewrite run_nil in Hrun. injection Hrun as _ <-. now rewrite app_nil_r.
  - destruct (perform_total now call c) as (r & c1 & Hp & _).
    rewrite (run_cons _ _ _ _ _ _ Hp) in Hrun.
    destruct (LRUCache.run calls c1) as [[rs' c'']|err] eqn:Hrest;
      [|discriminate].
    injection Hrun as _ <-.
    replace (hist ++ (now, call) :: calls)
      with ((hist ++ [(now, call)]) ++ calls)
      by (now rewrite <- app_assoc).
    eapply IH; [|exact Hrest].
    eapply perform_provenance; eassumption.
Qed.

(** X10.  Every value a [get] of a session returns was put there by an
    earlier [set] of the same session, with that key and that value, and
    at most one TTL before the [get]. *)
Theorem got_values_were_set_within_ttl (maxEntries ttlSeconds : option Z)
    (pre post : list (Z * LRUCache.call V)) (t : Z) (key : string) :
  exists rs c,
    LRUCache.session maxEntries ttlSeconds
      (pre ++ (t, LRUCache.CallGet key) :: post) = Returned (rs, c)
    /\ forall v,
         nth_error rs (List.length pre) = Some (LRUCache.GetReply (Some v)) ->
         exists t0,
           In (t0, LRUCache.CallSet key v) pre
           /\ t <= t0 + LRUCache.ttlMillis c.
Proof.
  unfold LRUCache.session, LRUCache.constructor.
  match goal with |- context [LRUCache.run _ ?c] => set (c0 := c) end.
  destruct (run_total (pre ++ (t, LRUCache.CallGet key) :: post) c0)
    as (rs & c & Hrun & _ & _).
  exists rs, c. split; [exact Hrun|].
  destruct (run_app_inv _ _ _ _ _ Hrun) as (rs1 & c1 & rs2 & Hrun1 & Hrun2 & ->).
  destruct (run_total pre c0) as (rs1' & c1' & Hrun1' & _ & Hlen).
  rewrite Hrun1 in Hrun1'. injection Hrun1' as <- <-.
  destruct (get_total t key c1) as (r & c2 & Hget & (_ & Httl2 & _) & _).
  rewrite (run_cons _ _ _ _ _ _ (perform_get _ _ _ _ _ Hget)) in Hrun2.
  destruct (run_total post c2) as (rs3 & c3 & Hrun3 & (_ & Httl3 & _) & _).
  rewrite Hrun3 in Hrun2. injection Hrun2 as <- <-.
  intros v Hnth.
  rewrite nth_error_app2 in Hnth by lia.
  rewrite Hlen, Nat.sub_diag in Hnth. simpl in Hnth.
  injection Hnth as ->.
  assert (Hprov : provenance ([] ++ pre) c1).
  { apply (run_provenance pre [] c0 rs1); [|exact Hrun1].
    intros k e Hb. discriminate. }
  destruct (get_cases t key c1) as (r & c2' & Hget' & _ & Hown).
  rewrite Hget in Hget'. injection Hget' as <- <-.
  destruct Hown as (e & Hb & Hv & Hlive & _).
  destruct (Hprov key e Hb) as (t0 & Hin & Hexp).
  exists t0. rewrite Hv in Hin. split; [exact Hin|].
  rewrite Httl3, Httl2. lia.
Qed.
End Provenance.

(** ** The weather handler and the cache *)

Section HandlerFacts.
Variable trim : string -> string.
Variable toLowerCase : string -> string.
Variable urlencode : list (string * string) -> string.
Context {Vendor : Type} {Data : Type}.
Variable extract : Vendor -> settled Data.
Variable API_KEY : option string.

Local Abbreviation weather_start :=
  (Server.weather_start trim toLowerCase urlencode (Data := Data) API_KEY).
Local Abbreviation weather_finish := (Server.weather_finish extract).
Local Abbreviation step :=
  (Server.step trim toLowerCase urlencode extract API_KEY).
Local Abbreviation steps :=
  (Server.steps trim toLowerCase urlencode extract API_KEY).
Implicit Types (c : LRUCache.t Data) (now stamp : Z) (city key : string).
Implicit Types (fetched : settled (Server.vendor_response Vendor)).

(** The first part of the handler, by what it finds. *)
Lemma weather_start_nested now stamp c :
  weather_start now stamp Server.Nested c = Thrown (Error "TypeError").
Proof. reflexivity. Qed.

Lemma weather_start_cases now stamp query_city c :
  query_city <> Server.Nested ->
  let city := trim (Server.query_text query_city) in
  let key := toLowerCase city in
  exists st c',
    weather_start now stamp query_city c = Returned (st, c')
    /\ keeps c c' []
    /\ JSMap.size (LRUCache.map c') <= JSMap.size (LRUCache.map c)
    /\ match st with
       | Server.Responded r =>
           (city = EmptyString /\ Server.status r = 400 /\ c' = c)
           \/ (city <> EmptyString
               /\ exists data,
                    LRUCache.get now key c = Returned (Some data, c')
                    /\ r = Server.mkResponse 200
                             (Server.WeatherBody true stamp data))
           \/ (city <> EmptyString
               /\ LRUCache.get now key c = Returned (None, c')
               /\ truthy_key API_KEY = false
               /\ Server.status r = 500)
       | Server.Awaiting city' key' url =>
           city' = city /\ key' = key /\ city <> EmptyString
           /\ url = Server.buildOpenWeatherUrl urlencode API_KEY city
           /\ truthy_key API_KEY = true
           /\ LRUCache.get now key c = Returned (None, c')
       end.
Proof.
  intros Hplain city key.
  assert (Hstart : weather_start now stamp query_city c
                   = (if String.eqb city EmptyString then
                        LRUCache.ret
                          (Server.Responded
                             (Server.mkResponse 400
                                (Server.ErrorBody
                                   "Missing required query parameter 'city'.")))
                      else
                        LRUCache.bind (LRUCache.get now key) (fun cached =>
                        match cached with
                        | Some data =>
                            LRUCache.ret
                              (Server.Responded
                                 (Server.mkResponse 200
                                    (Server.WeatherBody true stamp data)))
                        | None =>
                            if negb (truthy_key API_KEY) then
                              LRUCache.ret
                                (Server.Responded
                                   (Server.mkResponse 500
                                      (Server.ErrorBody
                                         "Server not configured with OPENWEATHERMAP_API_KEY. See README.")))
                            else
                              LRUCache.ret
                                (Server.Awaiting city key
                                   (Server.buildOpenWeatherUrl urlencode
                                      API_KEY city))
                        end)) c).
  { destruct query_city; [reflexivity | reflexivity | contradiction]. }
  rewrite Hstart. clear Hstart.
  destruct (String.eqb_spec city EmptyString) as [Hblank|Hcity].
  - eexists; eexists. split; [reflexivity|].
    split; [apply keeps_refl|]. split; [lia|]. left. now repeat split.
  - destruct (get_total now key c) as (r & c' & Hget & Hkeeps & Hsize).
    unfold LRUCache.bind. rewrite Hget.
    destruct r as [data|].
    + eexists; eexists. split; [reflexivity|].
      split; [exact Hkeeps|]. split; [exact Hsize|].
      right; left. split; [exact Hcity|]. now exists data.
    + destruct (truthy_key API_KEY) eqn:Hapi; cbn [negb].
      * eexists; eexists. split; [reflexivity|].
        split; [exact Hkeeps|]. split; [exact Hsize|]. now repeat split.
      * eexists; eexists. split; [reflexivity|].
        split; [exact Hkeeps|]. split; [exact Hsize|].
        right; right. now repeat split.
Qed.

(** The second part of the handler: it stores, under [key], exactly when
    it answers 200. *)
Lemma weather_finish_cases now stamp city key fetched c :
  exists r c',
    weather_finish now stamp city key fetched c = Returned (r, c')
    /\ ((Server.status r <> 200 /\ c' = c)
        \/ (exists vr vendor data,
              fetched = Fulfilled vr
              /\ Server.r_status vr <> 404
              /\ Server.r_ok vr = true
              /\ Server.r_json vr = Fulfilled vendor
              /\ extract vendor = Fulfilled data
              /\ r = Server.mkResponse 200
                       (Server.WeatherBody false stamp data)
              /\ LRUCache.set now key data c = Returned (tt, c'))).
Proof.
  unfold Server.weather_finish.
  destruct fetched as [vr|message].
  2:{ eexists; eexists. split; [reflexivity|]. left. split; [discriminate|reflexivity]. }
  destruct (Z.eqb_spec (Server.r_status vr) 404) as [H404|H404].
  { eexists; eexists. split; [reflexivity|]. left. split; [discriminate|reflexivity]. }
  destruct (Server.r_ok vr) eqn:Hok; cbn [negb].
  2:{ destruct (Server.r_text vr); eexists; eexists;
        (split; [reflexivity|]); left; (split; [discriminate|reflexivity]). }
  destruct (Server.r_json vr) as [vendor|message] eqn:Hjson.
  2:{ eexists; eexists. split; [reflexivity|]. left. split; [discriminate|reflexivity]. }
  destruct (extract vendor) as [data|message] eqn:Hex.
  2:{ eexists; eexists. split; [reflexivity|]. left. split; [discriminate|reflexivity]. }
  destruct (set_total now key data c) as (c' & Hset & _).
  unfold LRUCache.bind. rewrite Hset.
  eexists; eexists. split; [reflexivity|]. right.
  exists vr, vendor, data. now repeat split.
Qed.


(** X12.  A city fetched successfully is served from the cache.  After
    the handler stored the answer for a key at [t2], a request whose city
    (a string) trims and lowers to that key, entering within one TTL of
    [t2], is answered 200 with [cached: true] and the same data, without
    asking the vendor: whatever the capacity, and also when no API key is
    set. *)
Theorem fetched_city_is_served_from_cache t2 stamp2 t3 stamp3 city key
    (vr : Server.vendor_response Vendor) vendor data query_city c :
  Server.r_status vr <> 404 ->
  Server.r_ok vr = true ->
  Server.r_json vr = Fulfilled vendor ->
  extract vendor = Fulfilled data ->
  query_city <> Server.Nested ->
  trim (Server.query_text query_city) <> EmptyString ->
  toLowerCase (trim (Server.query_text query_city)) = key ->
  t3 <= t2 + LRUCache.ttlMillis c ->
  exists c1 c2,
    weather_finish t2 stamp2 city key (Fulfilled vr) c
    = Returned (Server.mkResponse 200 (Server.WeatherBody false stamp2 data),
                c1)
    /\ weather_start t3 stamp3 query_city c1
       = Returned
           (Server.Responded
              (Server.mkResponse 200 (Server.WeatherBody true stamp3 data)),
            c2).
Proof.
  intros H404 Hok Hjson Hex Hplain Hcity Hkey Hlive.
  destruct (set_cases t2 key data c) as (c1 & Hset & _ & _ & Hb & _).
  assert (Hhit : LRUCache.get t3 key c1
                 = Returned (Some data,
                             LRUCache.with_map c1
                               (JSMap.delete (LRUCache.map c1) key
                                ++ [(key,
                                     LRUCache.mkEntry data
                                       (t2 + LRUCache.ttlMillis c))]))).
  { rewrite (get_hit t3 key c1 _ Hb) by (cbn; lia). reflexivity. }
  exists c1. eexists. split.
  - unfold Server.weather_finish.
    apply Z.eqb_neq in H404. rewrite H404, Hok, Hjson, Hex. cbn [negb].
    unfold LRUCache.bind. rewrite Hset. reflexivity.
  - destruct (weather_start_cases t3 stamp3 query_city c1 Hplain)
      as (st & c2 & Hstart & _ & _ & Hst).
    rewrite Hkey in Hst. rewrite Hstart.
    destruct st as [r|city' key' url].
    + destruct Hst as [(Hblank & _)|[(_ & data' & Hget & ->)|(_ & Hget & _)]].
      * contradiction.
      * rewrite Hhit in Hget. injection Hget as <- <-. reflexivity.
      * rewrite Hhit in Hget. discriminate.
    + destruct Hst as (_ & _ & _ & _ & _ & Hget).
      rewrite Hhit in Hget. discriminate.
Qed.

(** X13.  Misses are not coalesced.  When a request has gone off to ask
    the vendor, the cache holds nothing for its key, so a second request
    for the same city that enters before the answer is stored goes off to
    the vendor too, with the same URL, and leaves the cache as it is. *)
Theorem concurrent_misses_both_reach_the_vendor t1 stamp1 query_city c
    city key url c1 :
  weather_start t1 stamp1 query_city c
  = Returned (Server.Awaiting city key url, c1) ->
  JSMap.get (LRUCache.map c1) key = None
  /\ forall t2 stamp2,
       weather_start t2 stamp2 query_city c1
       = Returned (Server.Awaiting city key url, c1).
Proof.
  intros Hstart.
  assert (Hplain : query_city <> Server.Nested).
  { intros ->. rewrite weather_start_nested in Hstart. discriminate. }
  destruct (weather_start_cases t1 stamp1 query_city c Hplain)
    as (st & c' & Hstart' & _ & _ & Hst).
  rewrite Hstart in Hstart'. injection Hstart' as <- <-.
  destruct Hst as (-> & -> & Hcity & -> & Hapi & Hget).
  assert (Hnone : JSMap.get (LRUCache.map c1)
                    (toLowerCase (trim (Server.query_text query_city)))
                  = None).
  { match type of Hget with LRUCache.get _ ?k _ = _ =>
      destruct (get_cases t1 k c) as (r & c2 & Hget' & _ & Hown) end.
    rewrite Hget in Hget'. injection Hget' as <- <-. exact Hown. }
  split; [exact Hnone|].
  intros t2 stamp2.
  destruct (weather_start_cases t2 stamp2 query_city c1 Hplain)
    as (st & c2 & Hstart2 & _ & _ & Hst).
  rewrite Hstart2. rewrite (get_miss _ _ _ Hnone) in Hst.
  destruct st as [r|city' key' url'].
  - destruct Hst as [(Hblank & _)|[(_ & data' & Hg & _)|(_ & _ & Hno & _)]].
    + contradiction.
    + discriminate.
    + rewrite Hapi in Hno. discriminate.
  - destruct Hst as (-> & -> & _ & -> & _ & Hg).
    injection Hg as <-. reflexivity.
Qed.

Lemma remove_nth_incl {A : Type} (n : nat) (l : list A) :
  incl (firstn n l ++ skipn (S n) l) l.
Proof.
  revert n. induction l as [|x l IH]; intros n.
  - destruct n; simpl; apply incl_refl.
  - destruct n as [|n]; simpl.
    + apply incl_tl, incl_refl.
    + intros y [<-|Hy]; [now left | right; now apply (IH n)].
Qed.

Lemma step_within_bound ev (s : Server.state Data) :
  (forall x, toLowerCase x = EmptyString -> x = EmptyString) ->
  Server.plain ev ->
  within_bound (Server.cache s) ->
  Forall (fun p => snd p <> EmptyString) (Server.pending s) ->
  exists r s',
    step ev s = Returned (r, s')
    /\ within_bound (Server.cache s')
    /\ Forall (fun p => snd p <> EmptyString) (Server.pending s')
    /\ LRUCache.maxEntries (Server.cache s')
       = LRUCache.maxEntries (Server.cache s).
Proof.
  intros Hlower Hplain Hb Hp.
  destruct ev as [now stamp q|n now stamp fetched|stamp];
    cbn [Server.step].
  - assert (Hq : q <> Server.Nested) by (intros ->; exact Hplain).
    destruct (weather_start_cases now stamp q (Server.cache s) Hq)
      as (st & c' & Hstart & (Hmax & _) & _ & Hst).
    rewrite Hstart. destruct st as [r|city key url].
    + eexists; eexists. split; [reflexivity|].
      cbn [Server.cache Server.pending]. split; [|split; [exact Hp | exact Hmax]].
      destruct Hst as [(_ & _ & ->)|[(_ & data & Hget & _)|(_ & Hget & _)]].
      * exact Hb.
      * eapply get_within_bound; eassumption.
      * eapply get_within_bound; eassumption.
    + destruct Hst as (-> & -> & Hcity & _ & _ & Hget).
      eexists; eexists. split; [reflexivity|].
      cbn [Server.cache Server.pending].
      split; [eapply get_within_bound; eassumption|].
      split; [|exact Hmax].
      apply Forall_app. split; [exact Hp|].
      constructor; [|constructor]. cbn [snd]. intros H.
      apply Hcity. now apply Hlower.
  - destruct (nth_error (Server.pending s) n) as [[city key]|] eqn:Hnth.
    2:{ eexists; eexists. split; [reflexivity|].
        split; [exact Hb | split; [exact Hp | reflexivity]]. }
    assert (Hkey : key <> EmptyString).
    { apply nth_error_In in Hnth.
      rewrite Forall_forall in Hp. apply (Hp _ Hnth). }
    destruct (weather_finish_cases now stamp city key fetched (Server.cache s))
      as (r & c' & Hfin & Hcases).
    rewrite Hfin. eexists; eexists. split; [reflexivity|].
    cbn [Server.cache Server.pending].
    assert (Hp' : Forall (fun p => snd p <> EmptyString)
                    (firstn n (Server.pending s)
                     ++ skipn (S n) (Server.pending s))).
    { rewrite Forall_forall in *. intros p Hin.
      apply Hp, (remove_nth_incl n _ p Hin). }
    destruct Hcases as [[_ ->]|(vr & vendor & data & _ & _ & _ & _ & _ & _ & Hset)].
    + split; [exact Hb | split; [exact Hp' | reflexivity]].
    + split; [eapply set_within_bound; eassumption|].
      split; [exact Hp'|].
      destruct (set_cases now key data (Server.cache s))
        as (c1 & Hset1 & Hmax & _).
      rewrite Hset in Hset1. injection Hset1 as <-. exact Hmax.
  - unfold Server.health, LRUCache.bind. rewrite stats_eq.
    eexists; eexists. split; [reflexivity|].
    split; [exact Hb | split; [exact Hp | reflexivity]].
Qed.

Lemma steps_within_bound (evs : list (Server.event Vendor))
    (s : Server.state Data) :
  (forall x, toLowerCase x = EmptyString -> x = EmptyString) ->
  Forall Server.plain evs ->
  within_bound (Server.cache s) ->
  Forall (fun p => snd p <> EmptyString) (Server.pending s) ->
  exists rs s',
    steps evs s = Returned (rs, s')
    /\ within_bound (Server.cache s')
    /\ Forall (fun p => snd p <> EmptyString) (Server.pending s')
    /\ LRUCache.maxEntries (Server.cache s')
       = LRUCache.maxEntries (Server.cache s)
    /\ List.length rs = List.length evs.
Proof.
  intros Hlower. revert s.
  induction evs as [|ev evs IH]; intros s Hplain Hb Hp.
  - exists [], s. split; [reflexivity|].
    split; [exact Hb|]. split; [exact Hp|]. split; reflexivity.
  - inversion Hplain as [|? ? Hev Hevs]; subst.
    destruct (step_within_bound ev s Hlower Hev Hb Hp)
      as (r & s1 & Hstep & Hb1 & Hp1 & Hmax1).
    destruct (IH s1 Hevs Hb1 Hp1) as (rs & s' & Hsteps & Hb' & Hp' & Hmax' & Hlen).
    exists (r :: rs), s'. cbn [Server.steps]. rewrite Hstep, Hsteps.
    split; [reflexivity|]. split; [exact Hb'|]. split; [exact Hp'|].
    split; [congruence|]. simpl. now rewrite Hlen.
Qed.

(** X14.  The cache the handlers work on stays within its bound whatever
    the requests and however they interleave.  Take a cache, of integer
    capacity, that stores no key twice, holds at most
    [max(capacity, 1)] entries and not the empty key, with every suspended
    request waiting under a non-empty key; a new cache with no suspended
    request is one.  Provided [toLowerCase] lowers no non-empty string to
    the empty one, every sequence of events whose query parameters are
    strings or missing (requests entering, suspended requests resuming in
    any order with any vendor answer, health checks) returns one response
    slot per event and leaves at most [max(capacity, 1)] entries and not
    the empty key.  A request whose query parameter is an array or object
    ends the run with a [TypeError] instead. *)
Theorem server_entries_within_capacity (evs : list (Server.event Vendor))
    (s : Server.state Data) :
  (forall x, toLowerCase x = EmptyString -> x = EmptyString) ->
  Forall Server.plain evs ->
  within_bound (Server.cache s) ->
  Forall (fun p => snd p <> EmptyString) (Server.pending s) ->
  (exists rs s',
     steps evs s = Returned (rs, s')
     /\ Z.of_nat (List.length (LRUCache.keys (Server.cache s')))
        <= Z.max (LRUCache.maxEntries (Server.cache s)) 1
     /\ NoDup (LRUCache.keys (Server.cache s'))
     /\ ~ In EmptyString (LRUCache.keys (Server.cache s'))
     /\ List.length rs = List.length evs)
  /\ forall now stamp evs',
       steps (evs ++ Server.Arrive now stamp Server.Nested :: evs') s
       = Thrown (Error "TypeError").
Proof.
  intros Hlower Hplain Hb Hp.
  destruct (steps_within_bound evs s Hlower Hplain Hb Hp)
    as (rs & s' & Hsteps & (Hwf & Hsize & Hne) & _ & Hmax & Hlen).
  split.
  - exists rs, s'. split; [exact Hsteps|]. split; [|split; [exact Hwf|]].
    + rewrite keys_length, <- Hmax. exact Hsize.
    + split; [exact Hne | exact Hlen].
  - intros now stamp evs'. clear Hlen Hmax Hne Hsize Hwf.
    revert s rs s' Hsteps Hb Hp.
    induction evs as [|ev evs IH]; intros s rs s' Hsteps Hb Hp.
    + reflexivity.
    + cbn [app Server.steps] in *.
      destruct (step ev s) as [[r s1]|e] eqn:Hstep; [|discriminate].
      destruct (steps evs s1) as [[rs1 s2]|e] eqn:Hrest; [|discriminate].
      inversion Hplain as [|? ? Hev Hevs]; subst.
      destruct (step_within_bound ev s Hlower Hev Hb Hp)
        as (r' & s1' & Hstep' & Hb1 & Hp1 & _).
      rewrite Hstep in Hstep'. injection Hstep' as <- <-.
      now rewrite (IH Hevs s1 rs1 s2 Hrest Hb1 Hp1).
Qed.
End HandlerFacts.

(** ** The properties at work on small caches *)

Section Examples.
Import LRUCache.
Local Open Scope string_scope.
Local Open Scope list_scope.

Lemma get_returns_only_live_values_witness :
  let c := mk 2 600000 [("a", mkEntry 1 600000)] in
  get 20 "a" c = Returned (Some 1, c)
  /\ exists e, JSMap.get (map c) "a" = Some e /\ value e = 1 /\ 20 <= expiry e.
Proof.
  intros c.
  assert (H : get 20 "a" c = Returned (Some 1, c)) by reflexivity.
  split; [exact H|].
  exact (get_returns_only_live_values 20 "a" c 1 c H).
Defined.

Lemma get_hit_keeps_expiry_witness :
  let c := mk 2 600000 [("a", mkEntry 1 600000)] in
  let e := mkEntry 1 600000 in
  (JSMap.get (map c) "a" = Some e /\ 599990 <= expiry e /\ expiry e < 600001)
  /\ exists c1 c2,
       get 599990 "a" c = Returned (Some 1, c1)
       /\ get 600001 "a" c1 = Returned (None, c2).
Proof.
  intros c e.
  assert (H1 : JSMap.get (map c) "a" = Some e) by reflexivity.
  assert (H2 : 599990 <= expiry e) by (cbn; lia).
  assert (H3 : expiry e < 600001) by (cbn; lia).
  split; [repeat split; assumption|].
  destruct (get_hit_keeps_expiry 599990 600001 "a" c e H1 H2 H3)
    as (c1 & c2 & Hhit & _ & Hmiss & _).
  exists c1, c2. split; [exact Hhit | exact Hmiss].
Defined.

Lemma set_overwrites_value_and_expiry_witness :
  let c := mk 2 1000 ([] : JSMap.t (entry Z)) in
  5500 <= 5000 + ttlMillis c
  /\ exists c1 c2 c3,
       set 0 "k" 1 c = Returned (tt, c1)
       /\ set 5000 "k" 2 c1 = Returned (tt, c2)
       /\ get 5500 "k" c2 = Returned (Some 2, c3).
Proof.
  intros c.
  assert (H : 5500 <= 5000 + ttlMillis c) by (cbn; lia).
  split; [exact H|].
  destruct (set_overwrites_value_and_expiry 0 5000 5500 "k" 1 2 c H)
    as (c1 & c2 & c3 & H1 & H2 & _ & H3).
  exists c1, c2, c3. repeat split; assumption.
Defined.

Lemma set_stored_key_below_capacity_witness :
  let c := mk 3 600000 [("a", mkEntry 1 600000); ("b", mkEntry 2 600010)] in
  (JSMap.wf (map c) /\ JSMap.size (map c) < maxEntries c /\ In "a" (keys c))
  /\ exists c', set 20 "a" 5 c = Returned (tt, c') /\ keys c' = ["b"; "a"].
Proof.
  intros c.
  assert (H1 : JSMap.wf (map c)).
  { unfold JSMap.wf. cbn. repeat constructor; cbn; intuition discriminate. }
  assert (H2 : JSMap.size (map c) < maxEntries c) by (cbn; lia).
  assert (H3 : In "a" (keys c)) by (cbn; now left).
  split; [repeat split; assumption|].
  destruct (set_stored_key_below_capacity 20 "a" 5 c H1 H2 H3)
    as (c' & Hset & Hkeys & _).
  exists c'. split; [exact Hset | exact Hkeys].
Defined.

Lemma set_stored_key_full_evicts_first_witness :
  let c := mk 2 600000 [("a", mkEntry 1 600000); ("b", mkEntry 2 600010)] in
  (JSMap.wf (map c) /\ maxEntries c <= JSMap.size (map c) /\ In "b" (keys c))
  /\ exists c', set 20 "b" 5 c = Returned (tt, c') /\ ~ In "a" (keys c').
Proof.
  intros c.
  assert (H1 : JSMap.wf (map c)).
  { unfold JSMap.wf. cbn. repeat constructor; cbn; intuition discriminate. }
  assert (H2 : maxEntries c <= JSMap.size (map c)) by (cbn; lia).
  assert (H3 : In "b" (keys c)) by (cbn; tauto).
  split; [repeat split; assumption|].
  destruct (set_stored_key_full_evicts_first 20 "b" 5 c "a"
              (mkEntry 1 600000) [("b", mkEntry 2 600010)] H1 H2 eq_refl)
    as (c' & Hset & _ & Hgone & _); [discriminate | discriminate | exact H3 |].
  exists c'. split; [exact Hset | exact Hgone].
Defined.


Lemma empty_first_key_blocks_eviction_witness :
  let c := mk 1 600000 [("", mkEntry 0 600000)] in
  let kvs := [(1, ("a", 1)); (2, ("b", 2))] in
  JSMap.first_key (map c) = Some ""
  /\ exists rs c',
       run (sets kvs) c = Returned (rs, c')
       /\ keys c' = [""; "a"; "b"]
       /\ JSMap.size (map c') = 3.
Proof.
  intros c kvs.
  assert (H1 : JSMap.first_key (map c) = Some "") by reflexivity.
  split; [exact H1|].
  destruct (empty_first_key_blocks_eviction kvs c H1)
    as (rs & c' & Hrun & Hkeys & Hsize).
  - cbn. repeat constructor; cbn; intuition discriminate.
  - cbn. intuition (subst; discriminate).
  - exists rs, c'. split; [exact Hrun|]. split; [exact Hkeys | exact Hsize].
Defined.

Lemma expired_get_frees_a_slot_witness :
  let c := mk 2 1000 [("a", mkEntry 1 1000); ("b", mkEntry 2 6000)] in
  let e := mkEntry 1 1000 in
  (JSMap.wf (map c) /\ JSMap.size (map c) <= maxEntries c
   /\ JSMap.get (map c) "a" = Some e /\ expiry e < 5500
   /\ ~ In "c" (keys c))
  /\ exists c1 c2,
       get 5500 "a" c = Returned (None, c1)
       /\ set 5600 "c" 3 c1 = Returned (tt, c2)
       /\ keys c2 = ["b"; "c"].
Proof.
  intros c e.
  assert (H1 : JSMap.wf (map c)).
  { unfold JSMap.wf. cbn. repeat constructor; cbn; intuition discriminate. }
  assert (H2 : JSMap.size (map c) <= maxEntries c) by (cbn; lia).
  assert (H3 : JSMap.get (map c) "a" = Some e) by reflexivity.
  assert (H4 : expiry e < 5500) by (cbn; lia).
  assert (H5 : ~ In "c" (keys c)) by (cbn; intuition discriminate).
  split; [repeat split; assumption|].
  destruct (expired_get_frees_a_slot 5500 5600 "a" "c" 3 c e H1 H2 H3 H4 H5)
    as (c1 & c2 & Hget & Hset & Hkeys & _).
  exists c1, c2. split; [exact Hget|]. split; [exact Hset | exact Hkeys].
Defined.

Lemma distinct_sets_keep_most_recent_witness :
  let kvs := [(0, ("a", 1)); (1, ("b", 2)); (2, ("c", 3))] in
  (0 < 2 /\ NoDup ["a"; "b"; "c"] /\ ~ In "" ["a"; "b"; "c"])
  /\ exists rs c,
       session (Some 2) (Some 600) (sets kvs) = Returned (rs, c)
       /\ keys c = ["b"; "c"].
Proof.
  intros kvs.
  assert (H1 : 0 < 2) by lia.
  assert (H2 : NoDup ["a"; "b"; "c"])
    by (repeat constructor; cbn; intuition discriminate).
  assert (H3 : ~ In "" ["a"; "b"; "c"]) by (cbn; intuition discriminate).
  split; [repeat split; assumption|].
  exact (distinct_sets_keep_most_recent 2 600 kvs H1 H2 H3).
Defined.
End Examples.

(** ** Health checks among the requests *)

Section HealthFacts.
Variable trim : string -> string.
Variable toLowerCase : string -> string.
Variable urlencode : list (string * string) -> string.
Context {Vendor : Type} {Data : Type}.
Variable extract : Vendor -> settled Data.
Variable API_KEY : option string.

Local Abbreviation step :=
  (Server.step trim toLowerCase urlencode extract API_KEY).
Local Abbreviation steps :=
  (Server.steps trim toLowerCase urlencode extract API_KEY).

Implicit Types (s : Server.state Data) (evs : list (Server.event Vendor)).

Lemma steps_app evs1 evs2 s rs1 s1 :
  steps evs1 s = Returned (rs1, s1) ->
  steps (evs1 ++ evs2) s
  = match steps evs2 s1 with
    | Returned (rs2, s2) => Returned (rs1 ++ rs2, s2)
    | Thrown e => Thrown e
    end.
Proof.
  revert s rs1. induction evs1 as [|ev evs1 IH]; intros s rs1 Hsteps.
  - cbn in Hsteps. injection Hsteps as <- <-. cbn [app].
    destruct (steps evs2 s) as [[rs2 s2]|e]; reflexivity.
  - cbn [Server.steps app] in *.
    destruct (step ev s) as [[r s']|e]; [|discriminate].
    destruct (steps evs1 s') as [[rs s'']|e] eqn:Hrest; [|discriminate].
    injection Hsteps as <- <-. rewrite (IH s' rs Hrest).
    destruct (steps evs2 s'') as [[rs2 s2]|e]; reflexivity.
Qed.

Lemma steps_app_thrown evs1 evs2 s e :
  steps evs1 s = Thrown e -> steps (evs1 ++ evs2) s = Thrown e.
Proof.
  revert s. induction evs1 as [|ev evs1 IH]; intros s Hsteps.
  - discriminate.
  - cbn [Server.steps app] in *.
    destruct (step ev s) as [[r s']|e']; [|exact Hsteps].
    destruct (steps evs1 s') as [[rs s'']|e'] eqn:Hrest; [discriminate|].
    injection Hsteps as <-. now rewrite (IH s' Hrest).
Qed.

Lemma step_health stamp s :
  step (Server.Health stamp) s
  = Returned
      (Some (Server.mkResponse 200
               (Server.HealthBody "ok" stamp
                  (Stats.mk
                     (Z.of_nat (List.length (LRUCache.keys (Server.cache s))))
                     (LRUCache.maxEntries (Server.cache s))
                     (LRUCache.ttlMillis (Server.cache s))))), s).
Proof.
  cbn [Server.step]. unfold Server.health, LRUCache.bind.
  rewrite stats_eq. unfold LRUCache.ret. rewrite keys_length.
  destruct s as [c p]. reflexivity.
Qed.

(** X15.  A health check between any two events disturbs nothing.  When
    the events before it have run, the check answers status 200 with
    ['ok'], its clock reading, the number of keys the cache holds at that
    moment (expired ones included), the capacity and the TTL in
    milliseconds; the events after it then get the responses and reach the
    state they get and reach without the check, and end with the same
    error if they end with one.  When the events before it end with an
    error, the run ends with that error with or without the check. *)
Theorem health_checks_disturb_nothing evs1 stamp evs2 s :
  match steps evs1 s with
  | Returned (rs1, s1) =>
      let h :=
        Server.mkResponse 200
          (Server.HealthBody "ok" stamp
             (Stats.mk
                (Z.of_nat (List.length (LRUCache.keys (Server.cache s1))))
                (LRUCache.maxEntries (Server.cache s1))
                (LRUCache.ttlMillis (Server.cache s1)))) in
      match steps evs2 s1 with
      | Returned (rs2, s2) =>
          steps (evs1 ++ evs2) s = Returned (rs1 ++ rs2, s2)
          /\ steps (evs1 ++ Server.Health stamp :: evs2) s
             = Returned (rs1 ++ Some h :: rs2, s2)
      | Thrown e =>
          steps (evs1 ++ evs2) s = Thrown e
          /\ steps (evs1 ++ Server.Health stamp :: evs2) s = Thrown e
      end
  | Thrown e =>
      steps (evs1 ++ evs2) s = Thrown e
      /\ steps (evs1 ++ Server.Health stamp :: evs2) s = Thrown e
  end.
Proof.
  destruct (steps evs1 s) as [[rs1 s1]|e] eqn:H1.
  - cbv zeta.
    rewrite !(steps_app _ _ _ _ _ H1).
    cbn [Server.steps]. rewrite step_health.
    destruct (steps evs2 s1) as [[rs2 s2]|e]; split; reflexivity.
  - split; now apply steps_app_thrown.
Qed.
End HealthFacts.

(** ** The handler on names written in ASCII *)

Section HandlerExamples.
Import LRUCache.
Local Open Scope string_scope.
Local Open Scope list_scope.

Lemma ascii_lower_nonempty (x : string) :
  ascii_lower x = EmptyString -> x = EmptyString.
Proof. destruct x; [reflexivity | discriminate]. Qed.

Lemma fetched_city_is_served_from_cache_witness :
  let urlencode := fun _ : list (string * string) => "q=London" in
  let extract := fun vendor : string => Fulfilled vendor in
  let vr := Server.mkVendorResponse 200 true (Fulfilled "{}")
              (Fulfilled "clouds") in
  let c := mk 200 600000 ([] : JSMap.t (entry string)) in
  let query := Server.Text "  London " in
  (ascii_trim "  London " <> ""
   /\ ascii_lower (ascii_trim "  London ") = "london"
   /\ 599000 <= 1000 + ttlMillis c)
  /\ exists c1 c2,
       Server.weather_finish extract 1000 1001 "london" "london"
         (Fulfilled vr) c
       = Returned (Server.mkResponse 200
                     (Server.WeatherBody false 1001 "clouds"), c1)
       /\ Server.weather_start ascii_trim ascii_lower urlencode None
            599000 599001 query c1
          = Returned (Server.Responded
                        (Server.mkResponse 200
                           (Server.WeatherBody true 599001 "clouds")), c2).
Proof.
  intros urlencode extract vr c query.
  assert (H1 : ascii_trim "  London " <> "") by (vm_compute; discriminate).
  assert (H2 : ascii_lower (ascii_trim "  London ") = "london") by reflexivity.
  assert (H3 : 599000 <= 1000 + ttlMillis c) by (cbn; lia).
  split; [repeat split; assumption|].
  apply (fetched_city_is_served_from_cache ascii_trim ascii_lower urlencode
           extract None 1000 1001 599000 599001 "london" "london" vr
           "clouds" "clouds" query c);
    try assumption; try reflexivity; discriminate.
Defined.

Lemma concurrent_misses_both_reach_the_vendor_witness :
  let urlencode := fun _ : list (string * string) => "q=Paris" in
  let c := mk 200 600000 ([] : JSMap.t (entry string)) in
  let url := Server.buildOpenWeatherUrl urlencode (Some "secret") "Paris" in
  Server.weather_start ascii_trim ascii_lower urlencode (Some "secret")
    10 11 (Server.Text "Paris") c
  = Returned (Server.Awaiting "Paris" "paris" url, c)
  /\ Server.weather_start ascii_trim ascii_lower urlencode (Some "secret")
       20 21 (Server.Text "Paris") c
     = Returned (Server.Awaiting "Paris" "paris" url, c).
Proof.
  intros urlencode c url.
  assert (H : Server.weather_start ascii_trim ascii_lower urlencode
                (Some "secret") 10 11 (Server.Text "Paris") c
              = Returned (Server.Awaiting "Paris" "paris" url, c))
    by reflexivity.
  split; [exact H|].
  exact (proj2 (concurrent_misses_both_reach_the_vendor ascii_trim ascii_lower
                  urlencode (Some "secret") 10 11 (Server.Text "Paris") c
                  "Paris" "paris" url c H) 20 21).
Defined.

Lemma server_entries_within_capacity_witness :
  let urlencode := fun _ : list (string * string) => "q=Paris" in
  let extract := fun vendor : string => Fulfilled vendor in
  let vr := Server.mkVendorResponse 200 true (Fulfilled "{}")
              (Fulfilled "clouds") in
  let vr' := Server.mkVendorResponse 200 true (Fulfilled "{}")
               (Fulfilled "rain") in
  let evs := [Server.Arrive 10 11 (Server.Text "Paris");
              Server.Arrive 12 13 (Server.Text " Oslo");
              Server.Settle 0 20 21 (Fulfilled vr);
              Server.Settle 0 22 23 (Fulfilled vr');
              Server.Health 30] in
  let c := mk 1 600000 ([] : JSMap.t (entry string)) in
  let s := Server.mkState c [] in
  (constructor (Some 1) (Some 600) = Returned c
   /\ (forall x, ascii_lower x = "" -> x = "")
   /\ Forall Server.plain evs
   /\ within_bound (Server.cache s)
   /\ Forall (fun p : string * string => snd p <> "") (Server.pending s))
  /\ exists rs s',
       Server.steps ascii_trim ascii_lower urlencode extract (Some "secret")
         evs s = Returned (rs, s')
       /\ keys (Server.cache s') = ["oslo"]
       /\ Z.of_nat (List.length (keys (Server.cache s'))) <= Z.max 1 1.
Proof.
  intros urlencode extract vr vr' evs c s.
  assert (H1 : Forall Server.plain evs) by (repeat constructor).
  assert (H2 : within_bound (Server.cache s)).
  { split; [apply NoDup_nil|].
    split; [unfold JSMap.size; cbn; lia | intros []]. }
  assert (H3 : Forall (fun p : string * string => snd p <> "")
                 (Server.pending s)) by constructor.
  split.
  { split; [reflexivity|]. split; [exact ascii_lower_nonempty|].
    split; [exact H1|]. split; [exact H2 | exact H3]. }
  destruct (server_entries_within_capacity ascii_trim ascii_lower urlencode
              extract (Some "secret") evs s ascii_lower_nonempty H1 H2 H3)
    as ((rs & s' & Hsteps & Hsize & _) & _).
  exists rs, s'. split; [exact Hsteps|]. split; [|exact Hsize].
  vm_compute in Hsteps. injection Hsteps as _ <-. reflexivity.
Defined.

Lemma health_checks_disturb_nothing_witness :
  let urlencode := fun _ : list (string * string) => "q=Paris" in
  let extract := fun vendor : string => Fulfilled vendor in
  let vr := Server.mkVendorResponse 200 true (Fulfilled "{}")
              (Fulfilled "clouds") in
  let s := Server.mkState (mk 200 600000 ([] : JSMap.t (entry string))) [] in
  let evs1 := [Server.Arrive 10 11 (Server.Text "Paris");
               Server.Settle 0 20 21 (Fulfilled vr)] in
  let evs2 := [Server.Arrive 40 41 (Server.Text " paris ")] in
  let s2 := Server.mkState
              (mk 200 600000 [("paris", mkEntry "clouds" 600020)]) [] in
  let stored := Some (Server.mkResponse 200
                        (Server.WeatherBody false 21 "clouds")) in
  let served := Some (Server.mkResponse 200
                        (Server.WeatherBody true 41 "clouds")) in
  let checked := Some (Server.mkResponse 200
                         (Server.HealthBody "ok" 30
                            (Stats.mk 1 200 600000))) in
  Server.steps ascii_trim ascii_lower urlencode extract (Some "secret")
    (evs1 ++ evs2) s
  = Returned ([None; stored; served], s2)
  /\ Server.steps ascii_trim ascii_lower urlencode extract (Some "secret")
       (evs1 ++ Server.Health 30 :: evs2) s
     = Returned ([None; stored; checked; served], s2).
Proof.
  intros urlencode extract vr s evs1 evs2 s2 stored served checked.
  exact (health_checks_disturb_nothing ascii_trim ascii_lower urlencode
           extract (Some "secret") evs1 30 evs2 s).
Defined.
End HandlerExamples.
